(** * A shallow embedding of the raycasting engine (src/raycasting.js)

    JavaScript numbers are modelled as ideal real numbers ([R]); quantities
    that the program only ever uses as whole numbers (tile ids, colour
    channels, texture sizes, array indices) are modelled as [Z] and injected
    with [IZR] where the source mixes them with fractional values.
    [Math.floor] is [Zfloor], [Math.cos]/[Math.sin]/[Math.sqrt] are the
    functions of the same name on [R], and [%] is the truncating remainder.
    Rounding of IEEE doubles, [NaN] and infinities are outside the model:
    a quotient by zero has no counterpart here, and [frame_divisors] below
    shows that on a well-formed configuration no divisor of the rendering
    code is zero.

    An array read out of range yields [undefined] in JavaScript: lookups
    return [option].  Reading a property of [undefined] raises a
    [TypeError]: computations that may do so live in the [outcome] monad. *)

From Stdlib Require Import Reals Lra Lia ZArith List Bool.
From Stdlib Require String.
Import String.StringSyntax.
Delimit Scope string_scope with string.
Import ListNotations.

#[local] Open Scope R_scope.

(** ** Outcomes of a JavaScript computation *)

Inductive outcome (A : Type) : Type :=
| Done (a : A)      (* ran to completion *)
| TypeError         (* a property of [undefined] was read *)
| OutOfFuel.        (* the model's loop budget was exhausted *)

Arguments Done {A} a.
Arguments TypeError {A}.
Arguments OutOfFuel {A}.

Definition bind {A B : Type} (m : outcome A) (k : A -> outcome B) : outcome B :=
  match m with
  | Done a => k a
  | TypeError => TypeError
  | OutOfFuel => OutOfFuel
  end.

Notation "x <- m ;; k" := (bind m (fun x => k))
  (at level 61, m at next level, right associativity).

(** ** JavaScript primitives *)

Module Js.

(** [a < b] and [a >= b] as booleans. *)
Definition ltb (a b : R) : bool := if Rlt_dec a b then true else false.
Definition geb (a b : R) : bool := if Rge_dec a b then true else false.

(** Rounding towards zero, used by [%]. *)
Definition trunc (x : R) : Z := if Rle_dec 0 x then Zfloor x else Zceil x.

(** [a % b]: the remainder has the sign of the dividend. *)
Definition rem (a b : R) : R := a - b * IZR (trunc (a / b)).

(** [arr[i]] for a whole-number [i]; [None] is [undefined]. *)
Definition idx {A : Type} (arr : list A) (i : Z) : option A :=
  if (i <? 0)%Z then None else nth_error arr (Z.to_nat i).

(** [v == 0] for a value that is a number or [undefined]. *)
Definition eq0 (v : option Z) : bool :=
  match v with
  | Some z => (z =? 0)%Z
  | None => false
  end.

(** Number of iterations of [for (v = lo; v < hi; v++)]. *)
Definition for_count (lo hi : R) : nat := Z.to_nat (Zceil (hi - lo)).

End Js.

(** ** The [data] object *)

Record Color : Type := mkColor
  { color_r : Z; color_g : Z; color_b : Z; color_a : Z }.

Record Screen : Type := mkScreen
  { screen_width : R; screen_height : R; screen_scale : R }.

(** A texture loaded from an image ([id] set, [data] filled by
    [loadTextures]/[loadBackgrounds]). *)
Record Image : Type := mkImage
  { image_width : Z; image_height : Z; image_data : list Color }.

(** An entry of [data.textures]: the source tells the two shapes apart by
    the presence of [id]. *)
Inductive Texture : Type :=
| Bitmap (width height : Z) (bitmap : list (list Z)) (colors : list Color)
| Loaded (img : Image).

Definition texture_width (t : Texture) : Z :=
  match t with
  | Bitmap w _ _ _ => w
  | Loaded img => image_width img
  end.

Definition texture_height (t : Texture) : Z :=
  match t with
  | Bitmap _ h _ _ => h
  | Loaded img => image_height img
  end.

Record Speed : Type := mkSpeed { speed_movement : R; speed_rotation : R }.

Record Player : Type := mkPlayer
  { player_fov : R;
    player_x : R;
    player_y : R;
    player_angle : R;
    player_speed : Speed;
    player_radius : R }.

(** The [active] flags of [data.key]. *)
Record Keys : Type := mkKeys
  { key_up : bool; key_down : bool; key_left : bool; key_right : bool }.

Definition Map : Type := list (list Z).

Record Data : Type := mkData
  { screen : Screen;
    floorTextures : list Image;
    backgrounds : list Image;
    precision : R;
    player : Player;
    key : Keys;
    map : Map;
    textures : list Texture }.

(** The pixel buffer [data.projection.buffer], a clamped byte array. *)
Definition Buffer : Type := list Z.

(** Calculated data (lines 126-131 of the source). *)
Definition player_halfFov (d : Data) : R := player_fov (player d) / 2.
Definition projection_width (d : Data) : R :=
  screen_width (screen d) / screen_scale (screen d).
Definition projection_height (d : Data) : R :=
  screen_height (screen d) / screen_scale (screen d).
Definition projection_halfWidth (d : Data) : R := projection_width d / 2.
Definition projection_halfHeight (d : Data) : R := projection_height d / 2.
Definition incrementAngle (d : Data) : R :=
  player_fov (player d) / projection_width d.

(** ** Helpers of the source *)

Definition degreeToRadians (degree : R) : R := degree * PI / 180.

(** [data.map[row][col]]: [TypeError] when the row is [undefined]. *)
Definition tile (m : Map) (row col : Z) : outcome (option Z) :=
  match Js.idx m row with
  | None => TypeError
  | Some cells => Done (Js.idx cells col)
  end.

(** [data.map.length] and [data.map[0].length]. *)
Definition map_height (m : Map) : R := INR (length m).
Definition map_width (m : Map) : R := INR (length (nth 0%nat m [])).

(** The bounds check of the wall finder (line 214). *)
Definition outside (m : Map) (x y : R) : bool :=
  Js.ltb y 0 || Js.geb y (map_height m) || Js.ltb x 0 || Js.geb x (map_width m).

(** ** The wall finder (lines 209-219) *)

Record Ray : Type := mkRay { ray_x : R; ray_y : R }.

(** One pass of the body of [while (wall == 0)]: the ray advances by one
    step and [wall] is assigned. *)
Definition advance (m : Map) (rayCos raySin : R) (ray : Ray)
  : Ray * outcome (option Z) :=
  let ray' := mkRay (ray_x ray + rayCos) (ray_y ray + raySin) in
  (ray',
   if outside m (ray_x ray') (ray_y ray') then Done (Some 1%Z)
   else tile m (Zfloor (ray_y ray')) (Zfloor (ray_x ray'))).

(** [wall] is [0] on entry, so the body runs at least once; the loop is
    left as soon as [wall == 0] fails. *)
Fixpoint wallFinder (fuel : nat) (m : Map) (rayCos raySin : R) (ray : Ray)
  : outcome (Ray * option Z) :=
  match fuel with
  | O => OutOfFuel
  | S fuel' =>
      let (ray', w) := advance m rayCos raySin ray in
      wall <- w ;;
      if Js.eq0 wall then wallFinder fuel' m rayCos raySin ray'
      else Done (ray', wall)
  end.

(** ** The pixel buffer (lines 170-189) *)

Definition clamp8 (v : Z) : Z := Z.max 0 (Z.min 255 v).

Fixpoint replace_nth {A : Type} (n : nat) (a : A) (l : list A) : list A :=
  match l, n with
  | [], _ => []
  | _ :: tl, O => a :: tl
  | hd :: tl, S n' => hd :: replace_nth n' a tl
  end.

(** [buffer[offset] = v]: a typed array ignores a write whose index is not
    a whole number inside the array, and clamps the value to a byte. *)
Definition store (offset : R) (v : Z) (buf : Buffer) : Buffer :=
  let i := Zfloor offset in
  if Req_dec_T (IZR i) offset then
    if ((0 <=? i) && (i <? Z.of_nat (length buf)))%Z
    then replace_nth (Z.to_nat i) (clamp8 v) buf
    else buf
  else buf.

(** [color] is [None] when the caller read it from outside a colour
    array; [color.r] then raises before anything is written. *)
Definition drawPixel (d : Data) (x y : R) (color : option Color) (buf : Buffer)
  : outcome Buffer :=
  match color with
  | None => TypeError
  | Some c =>
      let offset := 4 * (IZR (Zfloor x) + IZR (Zfloor y) * projection_width d) in
      Done (store (offset + 3) (color_a c)
             (store (offset + 2) (color_b c)
               (store (offset + 1) (color_g c)
                 (store offset (color_r c) buf))))
  end.

Fixpoint drawLine_from (n : nat) (d : Data) (x y : R) (color : option Color)
  (buf : Buffer) : outcome Buffer :=
  match n with
  | O => Done buf
  | S n' =>
      buf' <- drawPixel d x y color buf ;;
      drawLine_from n' d x (y + 1) color buf'
  end.

Definition drawLine (d : Data) (x y1 y2 : R) (color : option Color)
  (buf : Buffer) : outcome Buffer :=
  drawLine_from (Js.for_count y1 y2) d x y1 color buf.

(** ** Wall strip (lines 253-267) *)

Definition texture_color (texture : Texture) (texturePositionX i : Z)
  : outcome (option Color) :=
  match texture with
  | Loaded img =>
      Done (Js.idx (image_data img) (texturePositionX + i * image_width img))
  | Bitmap _ _ bitmap colors =>
      match Js.idx bitmap i with
      | None => TypeError
      | Some cells =>
          Done (match Js.idx cells texturePositionX with
                | None => None
                | Some c => Js.idx colors c
                end)
      end
  end.

Fixpoint drawTexture_from (n : nat) (d : Data) (x : R) (yIncrementer : R)
  (texturePositionX : Z) (texture : Texture) (i : Z) (y : R) (buf : Buffer)
  : outcome Buffer :=
  match n with
  | O => Done buf
  | S n' =>
      color <- texture_color texture texturePositionX i ;;
      buf' <- drawLine d x y (IZR (Zfloor (y + (yIncrementer + 2)))) color buf ;;
      drawTexture_from n' d x yIncrementer texturePositionX texture
        (i + 1) (y + yIncrementer) buf'
  end.

Definition drawTexture (d : Data) (x : R) (wallHeight : Z)
  (texturePositionX : Z) (texture : Texture) (buf : Buffer) : outcome Buffer :=
  let yIncrementer := (IZR wallHeight * 2) / IZR (texture_height texture) in
  let y := projection_halfHeight d - IZR wallHeight in
  drawTexture_from (Z.to_nat (texture_height texture)) d x yIncrementer
    texturePositionX texture 0 y buf.

(** ** Background (lines 276-284) *)

Fixpoint drawBackground_from (n : nat) (d : Data) (x : R) (offset : R)
  (background : option Image) (y : R) (buf : Buffer) : outcome Buffer :=
  match n with
  | O => Done buf
  | S n' =>
      match background with
      | None => TypeError
      | Some bg =>
          let textureX := Zfloor (Js.rem offset (IZR (image_width bg))) in
          let textureY := Zfloor (Js.rem y (IZR (image_height bg))) in
          let color := Js.idx (image_data bg) (textureX + textureY * image_width bg) in
          buf' <- drawPixel d x y color buf ;;
          drawBackground_from n' d x offset background (y + 1) buf'
      end
  end.

Definition drawBackground (d : Data) (x y1 y2 : R) (background : option Image)
  (buf : Buffer) : outcome Buffer :=
  let offset := player_angle (player d) + x in
  drawBackground_from (Js.for_count y1 y2) d x offset background y1 buf.

(** ** Floorcasting (lines 292-330) *)

(** Line 299. *)
Definition floorDistance (d : Data) (y : R) : R :=
  projection_height d / (2 * y - projection_height d).

(** Line 300. *)
Definition floorCorrected (d : Data) (rayAngle : R) (distance : R) : R :=
  distance / cos (degreeToRadians (player_angle (player d)) - degreeToRadians rayAngle).

(** Lines 303-306: the world point sampled for row [y]. *)
Definition floorPoint (d : Data) (rayAngle y : R) : R * R :=
  let directionCos := cos (degreeToRadians rayAngle) in
  let directionSin := sin (degreeToRadians rayAngle) in
  let distance := floorCorrected d rayAngle (floorDistance d y) in
  (distance * directionCos + player_x (player d),
   distance * directionSin + player_y (player d)).

(** The bounds check of line 310, on whole-number cell coordinates. *)
Definition outsideCell (m : Map) (mapX mapY : Z) : bool :=
  ((mapY <? 0) || (mapY >=? Z.of_nat (length m))
   || (mapX <? 0) || (mapX >=? Z.of_nat (length (nth 0%nat m []))))%Z.

(** [data.floorTextures[tile]]; an [undefined] tile indexes nothing. *)
Definition floorTexture (d : Data) (t : option Z) : option Image :=
  match t with
  | None => None
  | Some id => Js.idx (floorTextures d) id
  end.

(** Lines 323-324. *)
Definition floorTextureX (texture : Image) (tilex : R) : Z :=
  Z.rem (Zfloor (tilex * IZR (image_width texture))) (image_width texture).
Definition floorTextureY (texture : Image) (tiley : R) : Z :=
  Z.rem (Zfloor (tiley * IZR (image_height texture))) (image_height texture).

(** Lines 308-328: what is done with the world point [(tilex, tiley)] of
    row [y]; [continue] returns the buffer as it is. *)
Definition floorSample (d : Data) (x1 y tilex tiley : R) (buf : Buffer)
  : outcome Buffer :=
  let mapY := Zfloor tiley in
  let mapX := Zfloor tilex in
  if outsideCell (map d) mapX mapY then Done buf
  else
    t <- tile (map d) mapY mapX ;;
    match floorTexture d t with
    | None => Done buf
    | Some texture =>
        let texture_x := floorTextureX texture tilex in
        let texture_y := floorTextureY texture tiley in
        let color :=
          Js.idx (image_data texture) (texture_x + texture_y * image_width texture) in
        drawPixel d x1 y color buf
    end.

(** The body of the loop for one row [y] (lines 298-328). *)
Definition floorPixel (d : Data) (x1 : R) (rayAngle : R) (y : R) (buf : Buffer)
  : outcome Buffer :=
  let (tilex, tiley) := floorPoint d rayAngle y in
  floorSample d x1 y tilex tiley buf.

Fixpoint drawFloor_from (n : nat) (d : Data) (x1 : R) (rayAngle : R) (y : R)
  (buf : Buffer) : outcome Buffer :=
  match n with
  | O => Done buf
  | S n' =>
      buf' <- floorPixel d x1 rayAngle y buf ;;
      drawFloor_from n' d x1 rayAngle (y + 1) buf'
  end.

Definition drawFloor (d : Data) (x1 : R) (wallHeight : Z) (rayAngle : R)
  (buf : Buffer) : outcome Buffer :=
  let start := projection_halfHeight d + IZR wallHeight + 1 in
  drawFloor_from (Js.for_count start (projection_height d)) d x1 rayAngle start buf.

(** ** Raycasting (lines 194-244) *)

(** The values computed for one column before anything is drawn. *)
Record RayHit : Type := mkRayHit
  { hit_rayCount : nat;
    hit_rayAngle : R;
    hit_ray : Ray;
    hit_wall : option Z;
    hit_rawDistance : R;         (* line 222 *)
    hit_distance : R;            (* line 225, after the fish eye fix *)
    hit_wallHeight : Z;          (* line 228 *)
    hit_texture : Texture;       (* line 231 *)
    hit_texturePositionX : Z }.  (* line 234 *)

(** Line 222. *)
Definition rawDistance (d : Data) (ray : Ray) : R :=
  sqrt ((player_x (player d) - ray_x ray) ^ 2 + (player_y (player d) - ray_y ray) ^ 2).

(** Line 225. *)
Definition fishEyeFix (d : Data) (rayAngle : R) (distance : R) : R :=
  distance * cos (degreeToRadians (rayAngle - player_angle (player d))).

(** [data.textures[wall - 1]]. *)
Definition wallTexture (d : Data) (wall : option Z) : option Texture :=
  match wall with
  | None => None
  | Some id => Js.idx (textures d) (id - 1)
  end.

(** Line 234. *)
Definition texturePositionX (width : Z) (ray : Ray) : Z :=
  Zfloor (Js.rem (IZR width * (ray_x ray + ray_y ray)) (IZR width)).

(** Lines 199-219: the ray starts at the player and marches along
    [rayAngle]. *)
Definition findWall (fuel : nat) (d : Data) (rayAngle : R)
  : outcome (Ray * option Z) :=
  let ray := mkRay (player_x (player d)) (player_y (player d)) in
  let rayCos := cos (degreeToRadians rayAngle) / precision d in
  let raySin := sin (degreeToRadians rayAngle) / precision d in
  wallFinder fuel (map d) rayCos raySin ray.

(** Lines 199-234 for one column. *)
Definition castRay (fuel : nat) (d : Data) (rayCount : nat) (rayAngle : R)
  : outcome RayHit :=
  found <- findWall fuel d rayAngle ;;
  let (ray, wall) := found in
  let distance := rawDistance d ray in
  let distance' := fishEyeFix d rayAngle distance in
  let wallHeight := Zfloor (projection_halfHeight d / distance') in
  match wallTexture d wall with
  | None => TypeError
  | Some texture =>
      Done (mkRayHit rayCount rayAngle ray wall distance distance' wallHeight
              texture (texturePositionX (texture_width texture) ray))
  end.

(** Lines 237-239: the three draw calls of a column. *)
Definition drawColumn (d : Data) (h : RayHit) (buf : Buffer) : outcome Buffer :=
  let x := INR (hit_rayCount h) in
  buf1 <- drawBackground d x 0
            (projection_halfHeight d - IZR (hit_wallHeight h))
            (Js.idx (backgrounds d) 0) buf ;;
  buf2 <- drawTexture d x (hit_wallHeight h) (hit_texturePositionX h)
            (hit_texture h) buf1 ;;
  drawFloor d x (hit_wallHeight h) (hit_rayAngle h) buf2.

(** The buffer together with the per-column values seen so far (the
    latter is a record of the run, not a variable of the source). *)
Record Frame : Type := mkFrame { frame_hits : list RayHit; frame_buffer : Buffer }.

Fixpoint rayCasting_from (n : nat) (fuel : nat) (d : Data) (rayCount : nat)
  (rayAngle : R) (fr : Frame) : outcome Frame :=
  match n with
  | O => Done fr
  | S n' =>
      h <- castRay fuel d rayCount rayAngle ;;
      buf <- drawColumn d h (frame_buffer fr) ;;
      rayCasting_from n' fuel d (S rayCount) (rayAngle + incrementAngle d)
        (mkFrame (frame_hits fr ++ [h]) buf)
  end.

Definition rayCasting (fuel : nat) (d : Data) (buf : Buffer) : outcome Frame :=
  let rayAngle := player_angle (player d) - player_halfFov d in
  rayCasting_from (Js.for_count 0 (projection_width d)) fuel d 0 rayAngle
    (mkFrame [] buf).

(** The value of [rayAngle] when column [rayCount] is cast: the start
    angle (line 195) incremented once per earlier column (line 242). *)
Fixpoint rayAngleAt (d : Data) (rayCount : nat) : R :=
  match rayCount with
  | O => player_angle (player d) - player_halfFov d
  | S k => rayAngleAt d k + incrementAngle d
  end.

(** ** Movement (lines 502-545) *)

Definition set_x (p : Player) (v : R) : Player :=
  mkPlayer (player_fov p) v (player_y p) (player_angle p) (player_speed p) (player_radius p).
Definition set_y (p : Player) (v : R) : Player :=
  mkPlayer (player_fov p) (player_x p) v (player_angle p) (player_speed p) (player_radius p).
Definition set_angle (p : Player) (v : R) : Player :=
  mkPlayer (player_fov p) (player_x p) (player_y p) v (player_speed p) (player_radius p).

(** The collision detection shared by both directions (lines 512-517 and
    529-534): the second test reads [data.player.y] after the first
    assignment. *)
Definition collide (m : Map) (p : Player) (newX newY : R) (checkX checkY : Z)
  : outcome Player :=
  t1 <- tile m checkY (Zfloor (player_x p)) ;;
  let p1 := if Js.eq0 t1 then set_y p newY else p in
  t2 <- tile m (Zfloor (player_y p1)) checkX ;;
  Done (if Js.eq0 t2 then set_x p1 newX else p1).

(** Lines 503-519. *)
Definition moveUp (m : Map) (p : Player) : outcome Player :=
  let playerCos := cos (degreeToRadians (player_angle p)) * speed_movement (player_speed p) in
  let playerSin := sin (degreeToRadians (player_angle p)) * speed_movement (player_speed p) in
  let newX := player_x p + playerCos in
  let newY := player_y p + playerSin in
  let checkX := Zfloor (newX + playerCos * player_radius p) in
  let checkY := Zfloor (newY + playerSin * player_radius p) in
  collide m p newX newY checkX checkY.

(** Lines 520-535. *)
Definition moveDown (m : Map) (p : Player) : outcome Player :=
  let playerCos := cos (degreeToRadians (player_angle p)) * speed_movement (player_speed p) in
  let playerSin := sin (degreeToRadians (player_angle p)) * speed_movement (player_speed p) in
  let newX := player_x p - playerCos in
  let newY := player_y p - playerSin in
  let checkX := Zfloor (newX - playerCos * player_radius p) in
  let checkY := Zfloor (newY - playerSin * player_radius p) in
  collide m p newX newY checkX checkY.

(** Lines 536-540. *)
Definition turnLeft (p : Player) : Player :=
  let a := player_angle p - speed_rotation (player_speed p) in
  let a := if Js.ltb a 0 then a + 360 else a in
  set_angle p (Js.rem a 360).

(** Lines 541-544. *)
Definition turnRight (p : Player) : Player :=
  let a := player_angle p + speed_rotation (player_speed p) in
  set_angle p (Js.rem a 360).

Definition movePlayer (d : Data) : outcome Player :=
  let p := player d in
  p <- (if key_up (key d) then moveUp (map d) p else Done p) ;;
  p <- (if key_down (key d) then moveDown (map d) p else Done p) ;;
  let p := if key_left (key d) then turnLeft p else p in
  let p := if key_right (key d) then turnRight p else p in
  Done p.

(** ** The configuration shipped with the source (lines 16-123) *)

Definition default_map : Map :=
  [ [2; 2; 2; 2; 2; 2; 2; 2; 2; 2];
    [2; 0; 0; 0; 0; 0; 0; 0; 0; 2];
    [2; 0; 0; 0; 0; 0; 0; 0; 0; 2];
    [2; 0; 0; 2; 2; 0; 2; 0; 0; 2];
    [2; 0; 0; 2; 0; 0; 2; 0; 0; 2];
    [2; 0; 0; 2; 0; 0; 2; 0; 0; 2];
    [2; 0; 0; 2; 0; 2; 2; 0; 0; 2];
    [2; 0; 0; 0; 0; 0; 0; 0; 0; 2];
    [2; 0; 0; 0; 0; 0; 0; 0; 0; 2];
    [2; 2; 2; 2; 2; 2; 2; 2; 2; 2] ]%Z.

Definition default_bitmap : Texture :=
  Bitmap 8 8
    [ [1; 1; 1; 1; 1; 1; 1; 1];
      [0; 0; 0; 1; 0; 0; 0; 1];
      [1; 1; 1; 1; 1; 1; 1; 1];
      [0; 1; 0; 0; 0; 1; 0; 0];
      [1; 1; 1; 1; 1; 1; 1; 1];
      [0; 0; 0; 1; 0; 0; 0; 1];
      [1; 1; 1; 1; 1; 1; 1; 1];
      [0; 1; 0; 0; 0; 1; 0; 0] ]%Z
    [ mkColor 255 241 232 255; mkColor 194 195 199 255 ].

Definition default_player : Player :=
  mkPlayer 60 2 2 90 (mkSpeed (1 / 10) (45 / 10)) (3 / 10).

(** The three image-backed entries take their pixels from the page; they
    are arguments here. *)
Definition default_data (floor0 texture1 background0 : list Color) : Data :=
  mkData (mkScreen 640 480 4)
    [ mkImage 16 16 floor0 ]
    [ mkImage 360 60 background0 ]
    64
    default_player
    (mkKeys false false false false)
    default_map
    [ default_bitmap; Loaded (mkImage 16 16 texture1) ].

(** ** Running several ticks *)

(** [data] after a tick of [movePlayer] that stored player [p]. *)
Definition with_player (d : Data) (p : Player) : Data :=
  mkData (screen d) (floorTextures d) (backgrounds d) (precision d) p (key d)
    (map d) (textures d).

(** [data] with the keys in state [k]. *)
Definition with_key (d : Data) (k : Keys) : Data :=
  mkData (screen d) (floorTextures d) (backgrounds d) (precision d) (player d) k
    (map d) (textures d).

(** [n] consecutive ticks of [movePlayer] with the keys held. *)
Fixpoint ticks (n : nat) (d : Data) : outcome Data :=
  match n with
  | O => Done d
  | S n' => p <- movePlayer d ;; ticks n' (with_player d p)
  end.

(** ** Predicates used by the statements *)

(** The heading lies in [[0, 360)]. *)
Definition normalised (p : Player) : Prop := 0 <= player_angle p < 360.

(** *** Maps *)

(** The tile at a cell, by natural-number coordinates. *)
Definition cell (m : Map) (row col : nat) : Z := nth col (nth row m []) 0%Z.

(** All rows are as long as the first one. *)
Definition rectangularb (m : Map) : bool :=
  forallb (fun cells => (length cells =? length (nth 0 m []))%nat) m.

Definition on_border (m : Map) (row col : nat) : bool :=
  ((row =? 0) || (row =? length m - 1)
   || (col =? 0) || (col =? length (nth 0 m []) - 1))%nat.

(** A rectangular map whose border tiles are all non-zero. *)
Definition enclosedb (m : Map) : bool :=
  rectangularb m
  && forallb (fun row =>
       forallb (fun col =>
         implb (on_border m row col) (negb (cell m row col =? 0)%Z))
         (seq 0 (length (nth 0 m []))))
       (seq 0 (length m)).

Definition enclosed (m : Map) : Prop := enclosedb m = true.

(** A position off the border tiles. *)
Definition strictly_inside (m : Map) (x y : R) : Prop :=
  1 <= x < map_width m - 1 /\ 1 <= y < map_height m - 1.

(** Inside the coordinate bounds of the map. *)
Definition in_bounds (m : Map) (x y : R) : Prop :=
  0 <= x < map_width m /\ 0 <= y < map_height m.

(** *** Textures *)

(** Every non-zero tile id of the map selects an entry of
    [data.textures]. *)
Definition texturedb (d : Data) : bool :=
  forallb
    (forallb (fun t =>
       (t =? 0) || ((1 <=? t) && (t <=? Z.of_nat (length (textures d)))))%Z)
    (map d).

(** An image of positive size whose colour array has one entry per
    pixel. *)
Definition image_ok (img : Image) : Prop :=
  (0 < image_width img)%Z /\ (0 < image_height img)%Z
  /\ Z.of_nat (length (image_data img)) = (image_width img * image_height img)%Z.

Definition image_okb (img : Image) : bool :=
  ((0 <? image_width img) && (0 <? image_height img)
   && (Z.of_nat (length (image_data img)) =? image_width img * image_height img))%Z.

(** A wall texture every pixel of which resolves to a colour: a loaded
    image with one colour per pixel, or a bitmap of [height] rows of
    [width] palette indices, each inside the palette. *)
Definition texture_okb (t : Texture) : bool :=
  match t with
  | Loaded img => image_okb img
  | Bitmap w h bitmap colors =>
      ((0 <? w) && (0 <? h) && (Z.of_nat (length bitmap) =? h))%Z
      && forallb (fun cells =>
           (Z.of_nat (length cells) =? w)%Z
           && forallb (fun c => (0 <=? c) && (c <? Z.of_nat (length colors)))%Z cells)
           bitmap
  end.

(** The texture column as the specification words it: the floor is taken
    first, then the (non-negative) modulo. *)
Definition texCol_spec (textureWidth : Z) (hitX hitY : R) : Z :=
  (Zfloor (IZR textureWidth * (hitX + hitY)) mod textureWidth)%Z.

(** *** Configurations *)

(** The conditions under which a frame is rendered without error: an
    enclosed map whose tiles have textures, the player off the border and
    with a heading that is not negative, a precision of at least 1, a
    field of view below 180 degrees (so that no distance is zero or
    negative), a positive scale and projection height, well-formed
    textures and a well-formed first background. *)
Record well_formed (d : Data) : Prop := mkWellFormed
  { wf_enclosed : enclosed (map d);
    wf_inside : strictly_inside (map d) (player_x (player d)) (player_y (player d));
    wf_precision : 1 <= precision d;
    wf_fov : 0 < player_fov (player d) < 180;
    wf_angle : 0 <= player_angle (player d);
    wf_scale : 0 < screen_scale (screen d);
    wf_height : 0 < projection_height d;
    wf_textured : texturedb d = true;
    wf_textures : forallb texture_okb (textures d) = true;
    wf_floorTextures : forallb image_okb (floorTextures d) = true;
    wf_background :
      exists bg, Js.idx (backgrounds d) 0 = Some bg /\ image_okb bg = true }.

(** The shipped configuration with every image filled with one colour. *)
Definition plain_data (c : Color) : Data :=
  default_data (repeat c (16 * 16)) (repeat c (16 * 16)) (repeat c (360 * 60)).

(** *** The walk to a corner

    From the shipped start pose the left key is held for ten ticks, which
    turns the player from 90 to 45 degrees, and then the forward key. *)

(** The shipped configuration while the left key is held, after [j]
    ticks. *)
Definition turning_data (j : nat) : Data :=
  with_key
    (with_player (default_data [] [] [])
       (set_angle default_player (90 - INR j * (45 / 10))))
    (mkKeys false false true false).

(** The length of a forward step on each axis at 45 degrees. *)
Definition diagonal_step : R := cos (degreeToRadians 45) * (1 / 10).

(** The player after [k] unobstructed forward ticks at 45 degrees. *)
Definition walking (k : nat) : Player :=
  mkPlayer 60 (2 + INR k * diagonal_step) (2 + INR k * diagonal_step) 45
    (mkSpeed (1 / 10) (45 / 10)) (3 / 10).

Definition forward_data (k : nat) : Data :=
  with_key (with_player (default_data [] [] []) (walking k))
    (mkKeys true false false false).

(** After fourteen forward ticks the player is at about (2.99, 2.99),
    next to the corner of the wall tile at row 3, column 3. *)
Definition corner_data : Data := forward_data 14.

(** ** Further predicates *)

(** The position is on a walkable tile: the lookup succeeds and yields
    tile id 0. *)
Definition on_free_tile (m : Map) (x y : R) : Prop :=
  tile m (Zfloor y) (Zfloor x) = Done (Some 0%Z).

(** A forward or backward step together with its radius look-ahead is
    shorter than a tile. *)
Definition short_stride (p : Player) : Prop :=
  0 <= speed_movement (player_speed p)
  /\ 0 <= player_radius p
  /\ speed_movement (player_speed p) * (1 + player_radius p) < 1.

(** The byte offset of pixel [(x, y)] in a buffer [width] pixels wide
    (line 171 on whole numbers). *)
Definition pixelOffset (width x y : Z) : Z := (4 * (x + y * width))%Z.

(** The column of the pixel that byte [j] of the buffer belongs to. *)
Definition byteColumn (width : Z) (j : nat) : Z := ((Z.of_nat j / 4) mod width)%Z.

(** ** Clearing the screen (lines 335-342) *)

(** [n] passes of the loop body from index [i] on. *)
Fixpoint clearScreen_from (n : nat) (i : Z) (buf : Buffer) : Buffer :=
  match n with
  | O => buf
  | S n' =>
      clearScreen_from n' (i + 4)
        (store (IZR i + 3) 255
          (store (IZR i + 2) 0
            (store (IZR i + 1) 0
              (store (IZR i) 0 buf))))
  end.

(** [for (let i = 0; i < buffer.length; i += 4)]: one pass for every
    multiple of 4 below the length. *)
Definition clearScreen (buf : Buffer) : Buffer :=
  clearScreen_from (Z.to_nat ((Z.of_nat (length buf) + 3) / 4)) 0 buf.

(** The byte an opaque black pixel has at index [j]. *)
Definition blackByte (j : nat) : Z := if (j mod 4 =? 3)%nat then 255%Z else 0%Z.

(** ** Loading images (lines 390-396) *)

(** One colour per four bytes, the alpha byte replaced by 255.  A channel
    read past the end of the data is [undefined]; the clamped buffer
    stores [undefined] as 0, and 0 stands for it here. *)
Fixpoint parseImageData (imageData : list Z) : list Color :=
  match imageData with
  | [] => []
  | [r] => [mkColor r 0 0 255]
  | [r; g] => [mkColor r g 0 255]
  | [r; g; b] => [mkColor r g b 255]
  | r :: g :: b :: _ :: rest => mkColor r g b 255 :: parseImageData rest
  end.

(** ** Keyboard (lines 462-497) *)

(** The [keydown] listener: each of the four codes of [data.key] is
    compared with the code of the event in turn. *)
Definition keydown (keyCode : String.string) (k : Keys) : Keys :=
  let k := if String.eqb keyCode "KeyW"%string
           then mkKeys true (key_down k) (key_left k) (key_right k) else k in
  let k := if String.eqb keyCode "KeyS"%string
           then mkKeys (key_up k) true (key_left k) (key_right k) else k in
  let k := if String.eqb keyCode "KeyA"%string
           then mkKeys (key_up k) (key_down k) true (key_right k) else k in
  if String.eqb keyCode "KeyD"%string
  then mkKeys (key_up k) (key_down k) (key_left k) true else k.

(** The [keyup] listener. *)
Definition keyup (keyCode : String.string) (k : Keys) : Keys :=
  let k := if String.eqb keyCode "KeyW"%string
           then mkKeys false (key_down k) (key_left k) (key_right k) else k in
  let k := if String.eqb keyCode "KeyS"%string
           then mkKeys (key_up k) false (key_left k) (key_right k) else k in
  let k := if String.eqb keyCode "KeyA"%string
           then mkKeys (key_up k) (key_down k) false (key_right k) else k in
  if String.eqb keyCode "KeyD"%string
  then mkKeys (key_up k) (key_down k) (key_left k) false else k.

(** ** The main loop (lines 419-426) *)

(** One run of the interval callback: clear, move, cast.  (The last
    call, [renderBuffer], only copies the buffer to the page.) *)
Definition frame (fuel : nat) (d : Data) (buf : Buffer) : outcome (Data * Buffer) :=
  let buf := clearScreen buf in
  p <- movePlayer d ;;
  let d := with_player d p in
  fr <- rayCasting fuel d buf ;;
  Done (d, frame_buffer fr).

(** Consecutive runs of the callback; [ks] gives the state the key
    listeners have left the keys in before each run. *)
Fixpoint frames (ks : list Keys) (fuel : nat) (d : Data) (buf : Buffer)
  : outcome (Data * Buffer) :=
  match ks with
  | [] => Done (d, buf)
  | k :: ks' =>
      r <- frame fuel (with_key d k) buf ;;
      frames ks' fuel (fst r) (snd r)
  end.

(** A configuration the loop can run on: well-formed, the player on a
    walkable tile with a normalised heading, a stride shorter than a
    tile and a rotation speed below a full turn. *)
Record playable (d : Data) : Prop := mkPlayable
  { play_wf : well_formed d;
    play_free : on_free_tile (map d) (player_x (player d)) (player_y (player d));
    play_stride : short_stride (player d);
    play_heading : normalised (player d);
    play_rotation : 0 < speed_rotation (player_speed (player d)) < 360 }.

(** *** A map with an opening

    The shipped map with the tile of row 0, column 0 cleared; the player
    stands on that tile close to the west edge, 30 degrees (half the
    field of view) past west, so that the first ray of a frame points
    west.  Everything else is as shipped. *)
Definition open_map : Map :=
  [ [0; 2; 2; 2; 2; 2; 2; 2; 2; 2];
    [2; 0; 0; 0; 0; 0; 0; 0; 0; 2];
    [2; 0; 0; 0; 0; 0; 0; 0; 0; 2];
    [2; 0; 0; 2; 2; 0; 2; 0; 0; 2];
    [2; 0; 0; 2; 0; 0; 2; 0; 0; 2];
    [2; 0; 0; 2; 0; 0; 2; 0; 0; 2];
    [2; 0; 0; 2; 0; 2; 2; 0; 0; 2];
    [2; 0; 0; 0; 0; 0; 0; 0; 0; 2];
    [2; 0; 0; 0; 0; 0; 0; 0; 0; 2];
    [2; 2; 2; 2; 2; 2; 2; 2; 2; 2] ]%Z.

Definition edge_player : Player :=
  mkPlayer 60 (1 / 128) (1 / 256) 210 (mkSpeed (1 / 10) (45 / 10)) (3 / 10).

Definition edge_data (floor0 texture1 background0 : list Color) : Data :=
  let d := default_data floor0 texture1 background0 in
  mkData (screen d) (floorTextures d) (backgrounds d) (precision d) edge_player
    (key d) open_map (textures d).

(** * Properties *)

(** ** Facts about the primitives *)

(** [Math.floor] of a concrete number: show that it lies in [[z, z + 1)]. *)
Ltac floor_is z := apply (Zfloor_eq z); simpl; first [lra | nra].

Lemma ltb_true (a b : R) : Js.ltb a b = true <-> a < b.
Proof. unfold Js.ltb. destruct (Rlt_dec a b); split; intros; try easy. Qed.

Lemma ltb_false (a b : R) : Js.ltb a b = false <-> b <= a.
Proof.
  unfold Js.ltb. destruct (Rlt_dec a b); split; intros; try easy; lra.
Qed.

Lemma geb_true (a b : R) : Js.geb a b = true <-> b <= a.
Proof.
  unfold Js.geb. destruct (Rge_dec a b); split; intros; try easy; lra.
Qed.

Lemma geb_false (a b : R) : Js.geb a b = false <-> a < b.
Proof.
  unfold Js.geb. destruct (Rge_dec a b); split; intros; try easy; lra.
Qed.

Lemma trunc_nonneg (x : R) : 0 <= x -> Js.trunc x = Zfloor x.
Proof. intros Hx. unfold Js.trunc. destruct (Rle_dec 0 x); [reflexivity | lra]. Qed.

(** A dividend already inside [[0, b)] is left alone by [%]. *)
Lemma rem_small (a b : R) : 0 <= a < b -> Js.rem a b = a.
Proof.
  intros [Ha Hab]. unfold Js.rem.
  assert (Hq : 0 <= a / b < 1).
  { split.
    - apply Rmult_le_pos; [lra | left; apply Rinv_0_lt_compat; lra].
    - apply (Rmult_lt_reg_r b); [lra |]. unfold Rdiv.
      rewrite Rmult_assoc, Rinv_l by lra. lra. }
  rewrite trunc_nonneg by lra.
  rewrite (Zfloor_eq 0 (a / b)) by (simpl; lra). simpl. lra.
Qed.

(** For a non-negative dividend, [a % b] is [a - b * floor (a / b)] and
    lies in [[0, b)]. *)
Lemma rem_nonneg (a b : R) :
  0 <= a -> 0 < b ->
  Js.rem a b = a - b * IZR (Zfloor (a / b)) /\ 0 <= Js.rem a b < b.
Proof.
  intros Ha Hb.
  assert (Hq : 0 <= a / b).
  { apply Rmult_le_pos; [lra | left; apply Rinv_0_lt_compat; lra]. }
  unfold Js.rem. rewrite trunc_nonneg by exact Hq.
  split; [reflexivity |].
  pose proof (Zfloor_bound (a / b)) as [Hlo Hhi].
  assert (Hab : a = b * (a / b)) by (field; lra).
  split.
  - apply (Rmult_le_compat_l b) in Hlo; lra.
  - apply (Rmult_lt_compat_l b) in Hhi; lra.
Qed.

Lemma idx_Some {A : Type} (arr : list A) (i : Z) :
  (0 <= i < Z.of_nat (length arr))%Z -> exists a, Js.idx arr i = Some a.
Proof.
  intros Hi. unfold Js.idx.
  destruct (Z.ltb_spec i 0); [lia |].
  destruct (nth_error arr (Z.to_nat i)) eqn:E; [eauto |].
  apply nth_error_None in E. lia.
Qed.

Lemma idx_inv {A : Type} (arr : list A) (i : Z) (a : A) :
  Js.idx arr i = Some a -> (0 <= i < Z.of_nat (length arr))%Z /\ In a arr.
Proof.
  unfold Js.idx. destruct (Z.ltb_spec i 0); [discriminate |].
  intros E. split.
  - assert (Z.to_nat i < length arr)%nat by (apply nth_error_Some; congruence). lia.
  - eapply nth_error_In; eauto.
Qed.

(** [Js.for_count] counts exactly the values [lo + k] below [hi]. *)
Lemma for_count_spec (lo hi : R) (k : nat) :
  (k < Js.for_count lo hi)%nat <-> lo + INR k < hi.
Proof.
  unfold Js.for_count. pose proof (Zceil_bound (hi - lo)) as [Hlo Hhi].
  rewrite INR_IZR_INZ. split; intros H.
  - assert (Hk : (Z.of_nat k < Zceil (hi - lo))%Z) by lia.
    apply IZR_lt in Hk.
    assert (IZR (Z.of_nat k) + 1 <= IZR (Zceil (hi - lo))).
    { rewrite <- plus_IZR. apply IZR_le. apply lt_IZR in Hk. lia. }
    lra.
  - assert (Hk : (Z.of_nat k < Zceil (hi - lo))%Z).
    { apply lt_IZR. lra. }
    lia.
Qed.

(** ** Turning keeps the heading normalised *)

Lemma turnLeft_normalised (p : Player) :
  normalised p -> 0 < speed_rotation (player_speed p) < 360 ->
  normalised (turnLeft p).
Proof.
  unfold normalised, turnLeft. intros Ha Hr. cbn.
  destruct (Js.ltb _ 0) eqn:E.
  - apply ltb_true in E. rewrite rem_small; lra.
  - apply ltb_false in E. rewrite rem_small; lra.
Qed.

Lemma turnRight_normalised (p : Player) :
  normalised p -> 0 < speed_rotation (player_speed p) < 360 ->
  normalised (turnRight p).
Proof.
  unfold normalised, turnRight. intros Ha Hr. cbn.
  apply rem_nonneg; lra.
Qed.

Lemma turnLeft_speed (p : Player) : player_speed (turnLeft p) = player_speed p.
Proof. reflexivity. Qed.

Lemma turnRight_speed (p : Player) : player_speed (turnRight p) = player_speed p.
Proof. reflexivity. Qed.

(** Collision detection moves the player but never turns them. *)
Lemma collide_heading (m : Map) (p p' : Player) (newX newY : R) (checkX checkY : Z) :
  collide m p newX newY checkX checkY = Done p' ->
  player_angle p' = player_angle p /\ player_speed p' = player_speed p.
Proof.
  unfold collide. destruct (tile m checkY _) as [t1| |]; cbn; try discriminate.
  destruct (tile m _ checkX) as [t2| |]; cbn; try discriminate.
  intros E. injection E as <-.
  destruct (Js.eq0 t1), (Js.eq0 t2); cbn; auto.
Qed.

Lemma moveUp_heading (m : Map) (p p' : Player) :
  moveUp m p = Done p' ->
  player_angle p' = player_angle p /\ player_speed p' = player_speed p.
Proof. unfold moveUp. apply collide_heading. Qed.

Lemma moveDown_heading (m : Map) (p p' : Player) :
  moveDown m p = Done p' ->
  player_angle p' = player_angle p /\ player_speed p' = player_speed p.
Proof. unfold moveDown. apply collide_heading. Qed.

(** The two turning blocks at the end of [movePlayer], for any state of
    the two keys. *)
Lemma turns_normalised (l r : bool) (p : Player) :
  normalised p -> 0 < speed_rotation (player_speed p) < 360 ->
  normalised
    (let p1 := if l then turnLeft p else p in if r then turnRight p1 else p1).
Proof.
  intros Ha Hr. cbv zeta.
  assert (H1 : normalised (if l then turnLeft p else p)).
  { destruct l; [apply turnLeft_normalised |]; assumption. }
  assert (H2 : 0 < speed_rotation (player_speed (if l then turnLeft p else p)) < 360).
  { destruct l; [rewrite turnLeft_speed |]; assumption. }
  destruct r; [apply turnRight_normalised |]; assumption.
Qed.

Lemma movePlayer_normalised (d : Data) (p' : Player) :
  normalised (player d) ->
  0 < speed_rotation (player_speed (player d)) < 360 ->
  movePlayer d = Done p' -> normalised p'.
Proof.
  intros Ha Hr. unfold movePlayer.
  destruct (if key_up (key d) then moveUp (map d) (player d) else Done (player d))
    as [p1| |] eqn:E1; cbn; try discriminate.
  assert (K1 : player_angle p1 = player_angle (player d)
               /\ player_speed p1 = player_speed (player d)).
  { destruct (key_up (key d)); [eapply moveUp_heading; eauto |].
    injection E1 as <-. auto. }
  destruct (if key_down (key d) then moveDown (map d) p1 else Done p1)
    as [p2| |] eqn:E2; cbn; try discriminate.
  assert (K2 : player_angle p2 = player_angle p1 /\ player_speed p2 = player_speed p1).
  { destruct (key_down (key d)); [eapply moveDown_heading; eauto |].
    injection E2 as <-. auto. }
  intros E. injection E as <-.
  destruct K1 as [A1 S1], K2 as [A2 S2].
  apply turns_normalised.
  - unfold normalised in *. rewrite A2, A1. exact Ha.
  - rewrite S2, S1. exact Hr.
Qed.

(** With the two movement keys released the tick always completes. *)
Lemma movePlayer_turn_only (d : Data) :
  key_up (key d) = false -> key_down (key d) = false ->
  exists p', movePlayer d = Done p' /\ player_speed p' = player_speed (player d).
Proof.
  intros Hu Hd. unfold movePlayer. rewrite Hu, Hd. cbn.
  eexists. split; [reflexivity |].
  destruct (key_left (key d)), (key_right (key d)); reflexivity.
Qed.

Lemma ticks_turn_only (n : nat) : forall d : Data,
  key_up (key d) = false -> key_down (key d) = false ->
  normalised (player d) ->
  0 < speed_rotation (player_speed (player d)) < 360 ->
  exists d', ticks n d = Done d' /\ normalised (player d').
Proof.
  induction n as [|n IH]; intros d Hu Hd Ha Hr.
  - exists d. split; [reflexivity | assumption].
  - destruct (movePlayer_turn_only d Hu Hd) as [p' [E S]].
    cbn [ticks]. rewrite E. cbn [bind].
    apply IH; cbn; try assumption.
    + eapply movePlayer_normalised; eauto.
    + rewrite S. assumption.
Qed.

(** C8. If the heading is in [[0, 360)] and the rotation speed in
    [(0, 360)], then whatever keys are held, a tick of [movePlayer] that
    completes leaves the heading in [[0, 360)]; with only turning keys held
    (any combination of left and right) the tick always completes; and
    starting from heading 0 with the left key held, every number of ticks
    completes with a heading in [[0, 360)], so never a negative one. *)
Theorem movePlayer_heading_range (d : Data) :
  normalised (player d) ->
  0 < speed_rotation (player_speed (player d)) < 360 ->
  (forall p', movePlayer d = Done p' -> normalised p')
  /\ (key_up (key d) = false -> key_down (key d) = false ->
      exists p', movePlayer d = Done p' /\ normalised p')
  /\ (player_angle (player d) = 0 ->
      key d = mkKeys false false true false ->
      forall n, exists d', ticks n d = Done d' /\ 0 <= player_angle (player d') < 360).
Proof.
  intros Ha Hr. split; [| split].
  - intros p'. now apply movePlayer_normalised.
  - intros Hu Hd. destruct (movePlayer_turn_only d Hu Hd) as [p' [E _]].
    exists p'. split; [exact E |]. eapply movePlayer_normalised; eauto.
  - intros _ Hk n. apply ticks_turn_only; try assumption; rewrite Hk; reflexivity.
Qed.

Lemma movePlayer_heading_range_witness :
  let d := with_key (with_player (default_data [] [] []) (set_angle default_player 0))
             (mkKeys false false true false) in
  exists d', ticks 100 d = Done d' /\ 0 <= player_angle (player d') < 360.
Proof.
  intros d.
  refine (proj2 (proj2 (movePlayer_heading_range d _ _)) _ _ 100%nat);
    try reflexivity; unfold normalised; cbn; lra.
Defined.

(** ** The wall finder *)

Lemma Zfloor_in_range (x : R) (n : nat) :
  0 <= x < INR n -> (0 <= Zfloor x < Z.of_nat n)%Z.
Proof.
  intros [Hlo Hhi]. pose proof (Zfloor_bound x) as [Fl Fh]. split.
  - apply Zfloor_lub. simpl. exact Hlo.
  - apply lt_IZR. rewrite <- INR_IZR_INZ. lra.
Qed.

Lemma nat_above (t : R) : exists n : nat, t < INR (S n).
Proof.
  destruct (archimed t) as [Hup _].
  destruct (Z_le_gt_dec 0 (up t)) as [Hz|Hz].
  - exists (Z.to_nat (up t)). rewrite S_INR, INR_IZR_INZ, Z2Nat.id by exact Hz. lra.
  - exists 0%nat. cbn. apply Z.gt_lt, IZR_lt in Hz. lra.
Qed.

Lemma climbs (x r bound : R) :
  0 < r -> exists n : nat, bound <= x + INR (S n) * r.
Proof.
  intros Hr. destruct (nat_above ((bound - x) / r)) as [n Hn].
  exists n. apply (Rmult_lt_compat_r r) in Hn; [| exact Hr].
  unfold Rdiv in Hn. rewrite Rmult_assoc, Rinv_l, Rmult_1_r in Hn by lra. lra.
Qed.

Lemma sinks (x r : R) :
  r < 0 -> exists n : nat, x + INR (S n) * r < 0.
Proof.
  intros Hr. destruct (nat_above (x / - r)) as [n Hn].
  exists n. apply (Rmult_lt_compat_r (- r)) in Hn; [| lra].
  unfold Rdiv in Hn. rewrite Rmult_assoc, Rinv_l, Rmult_1_r in Hn by lra. lra.
Qed.

(** The step of a ray is never the zero vector. *)
Lemma step_moves (theta p : R) :
  0 < p -> cos theta / p <> 0 \/ sin theta / p <> 0.
Proof.
  intros Hp.
  destruct (Req_dec (cos theta) 0) as [Hc|Hc].
  - right. intros Hs.
    assert (Hs0 : sin theta = 0).
    { apply (Rmult_eq_compat_r p) in Hs. unfold Rdiv in Hs.
      rewrite Rmult_assoc, Rinv_l in Hs by lra. lra. }
    pose proof (sin2_cos2 theta) as H. unfold Rsqr in H. rewrite Hc, Hs0 in H. lra.
  - left. intros Hq. apply Hc.
    apply (Rmult_eq_compat_r p) in Hq. unfold Rdiv in Hq.
    rewrite Rmult_assoc, Rinv_l in Hq by lra. lra.
Qed.

Section March.

  (** A map and the step of one ray. *)
  Variable m : Map.
  Variables rc rs : R.

Lemma outside_false (x y : R) :
  outside m x y = false <-> in_bounds m x y.
Proof.
  unfold outside, in_bounds. rewrite !orb_false_iff.
  rewrite !ltb_false, !geb_false. tauto.
Qed.

Lemma outside_true (x y : R) :
  outside m x y = true <-> ~ in_bounds m x y.
Proof.
  rewrite <- outside_false. destruct (outside m x y); split; intros; easy.
Qed.

(** Inside the bounds the row exists, so the lookup of line 217 cannot
    raise. *)
Lemma tile_in_bounds (x y : R) :
  in_bounds m x y ->
  exists cells,
    nth_error m (Z.to_nat (Zfloor y)) = Some cells
    /\ tile m (Zfloor y) (Zfloor x) = Done (Js.idx cells (Zfloor x)).
Proof.
  intros [_ Hy]. apply Zfloor_in_range in Hy.
  unfold tile, Js.idx at 1.
  destruct (Z.ltb_spec (Zfloor y) 0); [lia |].
  destruct (nth_error m (Z.to_nat (Zfloor y))) as [cells|] eqn:E.
  - exists cells. auto.
  - apply nth_error_None in E. lia.
Qed.

Lemma advance_done (ray : Ray) :
  exists wall, snd (advance m rc rs ray) = Done wall.
Proof.
  unfold advance. cbn.
  destruct (outside m _ _) eqn:E; [eauto |].
  apply outside_false in E.
  destruct (tile_in_bounds _ _ E) as [cells [_ ->]]. eauto.
Qed.

Lemma wallFinder_S (fuel : nat) (ray : Ray) :
  wallFinder (S fuel) m rc rs ray
  = (wall <- snd (advance m rc rs ray) ;;
     if Js.eq0 wall then wallFinder fuel m rc rs (fst (advance m rc rs ray))
     else Done (fst (advance m rc rs ray), wall)).
Proof. reflexivity. Qed.

(** More fuel never changes a result. *)
Lemma wallFinder_mono :
  forall fuel fuel' ray found,
    (fuel <= fuel')%nat ->
    wallFinder fuel m rc rs ray = Done found ->
    wallFinder fuel' m rc rs ray = Done found.
Proof.
  induction fuel as [|fuel IH]; intros fuel' ray found Hle; [discriminate |].
  destruct fuel' as [|fuel']; [lia |].
  rewrite !wallFinder_S.
  destruct (snd (advance m rc rs ray)) as [wall| |]; cbn [bind]; try discriminate.
  destruct (Js.eq0 wall); [| auto].
  apply IH. lia.
Qed.

Lemma wallFinder_never_raises :
  forall fuel ray, wallFinder fuel m rc rs ray <> TypeError.
Proof.
  induction fuel as [|fuel IH]; intros ray; [discriminate |].
  rewrite wallFinder_S.
  destruct (advance_done ray) as [wall ->]. cbn [bind].
  destruct (Js.eq0 wall); [apply IH | discriminate].
Qed.

(** If the point [fuel + 1] steps ahead is outside the map, the loop has
    stopped by then. *)
Lemma wallFinder_reaches_edge :
  forall fuel ray,
    outside m (ray_x ray + INR (S fuel) * rc) (ray_y ray + INR (S fuel) * rs) = true ->
    exists found, wallFinder (S fuel) m rc rs ray = Done found.
Proof.
  induction fuel as [|fuel IH]; intros ray Hout; rewrite wallFinder_S.
  - unfold advance. cbn [fst snd ray_x ray_y].
    cbn [INR] in Hout. rewrite !Rmult_1_l in Hout.
    rewrite Hout. cbn. eauto.
  - destruct (advance_done ray) as [wall ->]. cbn [bind].
    destruct (Js.eq0 wall); [| eauto].
    apply IH. unfold advance. cbn [fst ray_x ray_y].
    rewrite <- Hout. rewrite (S_INR (S fuel)). f_equal; ring.
Qed.

(** A ray that moves at all leaves the coordinate bounds after finitely
    many steps. *)
Lemma eventually_outside (x y : R) :
  rc <> 0 \/ rs <> 0 ->
  exists fuel, outside m (x + INR (S fuel) * rc) (y + INR (S fuel) * rs) = true.
Proof.
  intros Hmove.
  assert (Hcases : 0 < rc \/ rc < 0 \/ 0 < rs \/ rs < 0) by lra.
  destruct Hcases as [H|[H|[H|H]]].
  - destruct (climbs x rc (map_width m) H) as [n Hn]. exists n.
    apply outside_true. unfold in_bounds. lra.
  - destruct (sinks x rc H) as [n Hn]. exists n.
    apply outside_true. unfold in_bounds. lra.
  - destruct (climbs y rs (map_height m) H) as [n Hn]. exists n.
    apply outside_true. unfold in_bounds. lra.
  - destruct (sinks y rs H) as [n Hn]. exists n.
    apply outside_true. unfold in_bounds. lra.
Qed.

(** The bounds check alone makes the loop finite: on any map, from any
    start, a moving ray is stopped. *)
Lemma wallFinder_terminates (ray : Ray) :
  rc <> 0 \/ rs <> 0 ->
  exists fuel found, wallFinder fuel m rc rs ray = Done found.
Proof.
  intros Hmove.
  destruct (eventually_outside (ray_x ray) (ray_y ray) Hmove) as [fuel Hout].
  exists (S fuel). now apply wallFinder_reaches_edge.
Qed.

(** What a finished wall finder returns: the ray has taken at least one
    step, [wall == 0] is false, and [wall] is the synthetic id [1] exactly
    when the ray stopped outside the bounds, the tile under the ray
    otherwise. *)
Lemma wallFinder_result :
  forall fuel ray ray' wall,
    wallFinder fuel m rc rs ray = Done (ray', wall) ->
    Js.eq0 wall = false
    /\ (exists n : nat,
          ray_x ray' = ray_x ray + INR (S n) * rc
          /\ ray_y ray' = ray_y ray + INR (S n) * rs)
    /\ (if outside m (ray_x ray') (ray_y ray')
        then wall = Some 1%Z
        else tile m (Zfloor (ray_y ray')) (Zfloor (ray_x ray')) = Done wall).
Proof.
  induction fuel as [|fuel IH]; intros ray ray' wall; [discriminate |].
  rewrite wallFinder_S. unfold advance. cbn [fst snd].
  set (next := mkRay (ray_x ray + rc) (ray_y ray + rs)).
  destruct (if outside m (ray_x next) (ray_y next) then Done (Some 1%Z)
            else tile m (Zfloor (ray_y next)) (Zfloor (ray_x next)))
    as [w| |] eqn:Ew; cbn [bind]; try discriminate.
  destruct (Js.eq0 w) eqn:E0.
  - intros Hrec. destruct (IH _ _ _ Hrec) as [H0 [[n [Hx Hy]] Hw]].
    split; [exact H0 |]. split; [| exact Hw].
    exists (S n). rewrite Hx, Hy. subst next. cbn [ray_x ray_y].
    rewrite (S_INR (S n)). split; ring.
  - intros Hd. injection Hd as <- <-.
    split; [exact E0 |]. split.
    + exists 0%nat. subst next. cbn. split; ring.
    + destruct (outside m (ray_x next) (ray_y next)); [congruence | exact Ew].
Qed.

Lemma off_border_inside (x y : R) :
  in_bounds m x y ->
  on_border m (Z.to_nat (Zfloor y)) (Z.to_nat (Zfloor x)) = false ->
  strictly_inside m x y.
Proof.
  intros [Hx Hy] Hb.
  pose proof (Zfloor_in_range _ _ Hx) as Zx.
  pose proof (Zfloor_in_range _ _ Hy) as Zy.
  pose proof (Zfloor_bound x) as [Xl Xh].
  pose proof (Zfloor_bound y) as [Yl Yh].
  unfold on_border in Hb. rewrite !orb_false_iff in Hb.
  destruct Hb as [[[R0 R1] C0] C1].
  apply Nat.eqb_neq in R0, R1, C0, C1.
  unfold strictly_inside, map_width, map_height. rewrite !INR_IZR_INZ.
  assert (Ax : (1 <= Zfloor x /\ Zfloor x + 1 <= Z.of_nat (length (nth 0%nat m [])) - 1)%Z) by lia.
  assert (Ay : (1 <= Zfloor y /\ Zfloor y + 1 <= Z.of_nat (length m) - 1)%Z) by lia.
  destruct Ax as [Ax1 Ax2], Ay as [Ay1 Ay2].
  apply IZR_le in Ax1, Ax2, Ay1, Ay2.
  rewrite minus_IZR, plus_IZR in Ax2, Ay2. lra.
Qed.

(** *** Enclosed maps *)

Section Enclosed.

  Hypothesis Henc : enclosed m.

  (** No step is longer than a tile on either axis. *)
  Hypothesis Hrc : -1 <= rc <= 1.
  Hypothesis Hrs : -1 <= rs <= 1.

Lemma enclosed_rectangular (row : nat) (cells : list Z) :
  nth_error m row = Some cells ->
  length cells = length (nth 0%nat m []).
Proof.
  pose proof Henc as H. unfold enclosed, enclosedb in H. intros E.
  apply andb_prop in H as [Hrect _].
  unfold rectangularb in Hrect. rewrite forallb_forall in Hrect.
  apply Nat.eqb_eq. apply Hrect. eapply nth_error_In; eauto.
Qed.

Lemma enclosed_border (row col : nat) :
  (row < length m)%nat -> (col < length (nth 0%nat m []))%nat ->
  cell m row col = 0%Z -> on_border m row col = false.
Proof.
  pose proof Henc as H. unfold enclosed, enclosedb in H. intros Hr Hc Hz.
  apply andb_prop in H as [_ Hb].
  rewrite forallb_forall in Hb.
  specialize (Hb row). rewrite in_seq in Hb.
  assert (Hrow := Hb ltac:(lia)). clear Hb.
  rewrite forallb_forall in Hrow.
  specialize (Hrow col). rewrite in_seq in Hrow.
  assert (Hcol := Hrow ltac:(lia)). clear Hrow.
  rewrite Hz in Hcol. cbn in Hcol.
  destruct (on_border m row col); [discriminate | reflexivity].
Qed.

(** On an enclosed map a lookup inside the bounds yields a tile. *)
Lemma tile_cell (x y : R) :
  in_bounds m x y ->
  tile m (Zfloor y) (Zfloor x)
  = Done (Some (cell m (Z.to_nat (Zfloor y)) (Z.to_nat (Zfloor x)))).
Proof.
  intros Hin.
  destruct (tile_in_bounds x y Hin) as [cells [Erow ->]].
  destruct Hin as [Hx _]. apply Zfloor_in_range in Hx.
  pose proof (enclosed_rectangular _ cells Erow) as Hlen.
  unfold Js.idx. destruct (Z.ltb_spec (Zfloor x) 0); [lia |].
  unfold cell. rewrite (nth_error_nth m _ [] Erow).
  rewrite nth_error_nth' with (d := 0%Z) by lia. reflexivity.
Qed.

(** From a position off the border, one step stays inside the bounds. *)
Lemma inside_step (x y : R) :
  strictly_inside m x y -> in_bounds m (x + rc) (y + rs).
Proof. unfold strictly_inside, in_bounds. lra. Qed.

(** A ray started off the border stops on a tile inside the bounds: the
    fallback of line 215 is never taken. *)
Lemma wallFinder_enclosed :
  forall fuel ray,
    strictly_inside m (ray_x ray) (ray_y ray) ->
    outside m (ray_x ray + INR (S fuel) * rc) (ray_y ray + INR (S fuel) * rs) = true ->
    exists ray' wall,
      wallFinder (S fuel) m rc rs ray = Done (ray', wall)
      /\ in_bounds m (ray_x ray') (ray_y ray').
Proof.
  induction fuel as [|fuel IH]; intros ray Hin Hout.
  - exfalso. apply outside_true in Hout. apply Hout.
    cbn. rewrite !Rmult_1_l. now apply inside_step.
  - pose proof (inside_step _ _ Hin) as Hnext.
    rewrite wallFinder_S. unfold advance. cbn [ray_x ray_y fst snd].
    rewrite (proj2 (outside_false _ _) Hnext).
    rewrite (tile_cell _ _ Hnext). cbn [bind Js.eq0].
    destruct (Z.eqb_spec (cell m (Z.to_nat (Zfloor (ray_y ray + rs)))
                            (Z.to_nat (Zfloor (ray_x ray + rc)))) 0) as [Ez|Ez].
    + apply IH; cbn [ray_x ray_y].
      * apply off_border_inside; [exact Hnext |].
        destruct Hnext as [Hx Hy].
        apply Zfloor_in_range in Hx, Hy.
        apply enclosed_border; try assumption; lia.
      * rewrite <- Hout. rewrite (S_INR (S fuel)). f_equal; ring.
    + eexists _, _. split; [reflexivity | exact Hnext].
Qed.

End Enclosed.

End March.

(** ** Columns and their angles *)

Lemma rayAngleAt_eq (d : Data) (k : nat) :
  rayAngleAt d k
  = player_angle (player d) - player_halfFov d + INR k * incrementAngle d.
Proof.
  induction k as [|k IH].
  - cbn. ring.
  - cbn [rayAngleAt]. rewrite IH, S_INR. ring.
Qed.

(** Every column looks less than half the field of view away from the
    heading. *)
Lemma rayAngleAt_offset (d : Data) (k : nat) :
  0 < player_fov (player d) ->
  INR k < projection_width d ->
  - (player_fov (player d) / 2) <= rayAngleAt d k - player_angle (player d)
  /\ rayAngleAt d k - player_angle (player d) < player_fov (player d) / 2.
Proof.
  intros Hfov Hk. rewrite rayAngleAt_eq. unfold player_halfFov, incrementAngle.
  set (fov := player_fov (player d)) in *.
  set (w := projection_width d) in *.
  pose proof (pos_INR k) as Hk0.
  assert (Hw : 0 < w) by lra.
  assert (Hq : 0 <= INR k * (fov / w) < fov).
  { unfold Rdiv. rewrite <- Rmult_assoc. split.
    - apply Rmult_le_pos; [nra | left; now apply Rinv_0_lt_compat].
    - apply (Rmult_lt_reg_r w); [exact Hw |].
      rewrite Rmult_assoc, Rinv_l by lra. nra. }
  lra.
Qed.

Lemma cos_degrees_pos (a : R) :
  -90 < a < 90 -> 0 < cos (degreeToRadians a).
Proof.
  intros [Hlo Hhi]. pose proof PI_RGT_0 as Hpi.
  unfold degreeToRadians. apply cos_gt_0; nra.
Qed.

Lemma rawDistance_pos (d : Data) (ray : Ray) (n : nat) (rc rs : R) :
  rc <> 0 \/ rs <> 0 ->
  ray_x ray = player_x (player d) + INR (S n) * rc ->
  ray_y ray = player_y (player d) + INR (S n) * rs ->
  0 < rawDistance d ray.
Proof.
  intros Hmove Hx Hy. unfold rawDistance. apply sqrt_lt_R0.
  rewrite Hx, Hy.
  pose proof (lt_0_INR (S n) ltac:(lia)) as Hn.
  replace ((player_x (player d) - (player_x (player d) + INR (S n) * rc)) ^ 2
           + (player_y (player d) - (player_y (player d) + INR (S n) * rs)) ^ 2)
    with (INR (S n) ^ 2 * (rc ^ 2 + rs ^ 2)) by ring.
  apply Rmult_lt_0_compat; [nra |].
  destruct Hmove as [H|H]; nra.
Qed.

Lemma step_short (c p : R) : 1 <= p -> -1 <= c <= 1 -> -1 <= c / p <= 1.
Proof.
  intros Hp Hc.
  assert (Hi : 0 < / p <= 1).
  { split; [apply Rinv_0_lt_compat; lra |].
    rewrite <- Rinv_1. apply Rinv_le_contravar; lra. }
  unfold Rdiv. nra.
Qed.

(** The wall finder of any ray: it stops after at least one step, and
    from then on more fuel changes nothing.  On an enclosed map, from a
    position off the border and with a precision of at least 1, it stops
    inside the bounds on the tile it reports. *)
Lemma findWall_total (d : Data) (rayAngle : R) :
  0 < precision d ->
  exists fuel ray wall,
    (forall fuel', (fuel <= fuel')%nat -> findWall fuel' d rayAngle = Done (ray, wall))
    /\ Js.eq0 wall = false
    /\ 0 < rawDistance d ray
    /\ (enclosed (map d) ->
        strictly_inside (map d) (player_x (player d)) (player_y (player d)) ->
        1 <= precision d ->
        in_bounds (map d) (ray_x ray) (ray_y ray)
        /\ tile (map d) (Zfloor (ray_y ray)) (Zfloor (ray_x ray)) = Done wall).
Proof.
  intros Hp. unfold findWall.
  set (theta := degreeToRadians rayAngle).
  set (start := mkRay (player_x (player d)) (player_y (player d))).
  pose proof (step_moves theta (precision d) Hp) as Hmove.
  destruct (wallFinder_terminates (map d) _ _ start Hmove) as [fuel [[ray wall] Hrun]].
  exists fuel, ray, wall.
  split; [intros fuel' Hle; eapply wallFinder_mono; eauto |].
  destruct (wallFinder_result _ _ _ _ _ _ _ Hrun) as [H0 [[n [Hx Hy]] Hw]].
  split; [exact H0 |]. split; [eapply rawDistance_pos; eauto |].
  intros Henc Hin Hp1.
  destruct (eventually_outside (map d) _ _ (ray_x start) (ray_y start) Hmove)
    as [fuel2 Hout].
  destruct (wallFinder_enclosed (map d) _ _ Henc
              (step_short _ _ Hp1 (COS_bound theta))
              (step_short _ _ Hp1 (SIN_bound theta))
              fuel2 start Hin Hout) as [ray2 [wall2 [Hrun2 Hin2]]].
  assert (E : (ray2, wall2) = (ray, wall)).
  { apply (wallFinder_mono _ _ _ _ (Nat.max fuel (S fuel2))) in Hrun; [| lia].
    apply (wallFinder_mono _ _ _ _ (Nat.max fuel (S fuel2))) in Hrun2; [| lia].
    congruence. }
  injection E as -> ->.
  rewrite (proj2 (outside_false _ _ _) Hin2) in Hw. auto.
Qed.

(** C1. With a positive precision and a field of view below 180 degrees,
    the wall-finder loop of every column [k < projectionWidth] terminates
    and the distance after the fish eye fix is strictly positive -- on any
    map and from any position.  When moreover the map is enclosed, the
    player is off the border tiles and the precision is at least 1, the
    ray stops inside the bounds on the map tile it reports. *)
Theorem rayCasting_columns_terminate (d : Data) (k : nat) :
  0 < precision d ->
  0 < player_fov (player d) < 180 ->
  INR k < projection_width d ->
  exists fuel ray wall,
    findWall fuel d (rayAngleAt d k) = Done (ray, wall)
    /\ 0 < fishEyeFix d (rayAngleAt d k) (rawDistance d ray)
    /\ (enclosed (map d) ->
        strictly_inside (map d) (player_x (player d)) (player_y (player d)) ->
        1 <= precision d ->
        in_bounds (map d) (ray_x ray) (ray_y ray)
        /\ tile (map d) (Zfloor (ray_y ray)) (Zfloor (ray_x ray)) = Done wall
        /\ Js.eq0 wall = false).
Proof.
  intros Hp Hfov Hk.
  destruct (findWall_total d (rayAngleAt d k) Hp)
    as [fuel [ray [wall [Hrun [H0 [Hraw Henc]]]]]].
  exists fuel, ray, wall. split; [apply Hrun; lia |]. split.
  - unfold fishEyeFix. apply Rmult_lt_0_compat; [exact Hraw |].
    apply cos_degrees_pos.
    pose proof (rayAngleAt_offset d k (proj1 Hfov) Hk). lra.
  - intros H1 H2 H3. destruct (Henc H1 H2 H3). auto.
Qed.

Lemma rayCasting_columns_terminate_witness :
  let d := default_data [] [] [] in
  exists fuel ray wall,
    findWall fuel d (rayAngleAt d 80) = Done (ray, wall)
    /\ 0 < fishEyeFix d (rayAngleAt d 80) (rawDistance d ray)
    /\ in_bounds (map d) (ray_x ray) (ray_y ray)
    /\ Js.eq0 wall = false.
Proof.
  intros d.
  destruct (rayCasting_columns_terminate d 80) as [fuel [ray [wall [H1 [H2 H3]]]]].
  - cbn. lra.
  - cbn. lra.
  - unfold projection_width. cbn. lra.
  - exists fuel, ray, wall. split; [exact H1 |]. split; [exact H2 |].
    destruct H3 as [H3 [_ H4]].
    + reflexivity.
    + unfold strictly_inside, map_width, map_height. cbn. lra.
    + cbn. lra.
    + split; [exact H3 | exact H4].
Defined.

(** ** Distances *)

Lemma degreeToRadians_sub (a b : R) :
  degreeToRadians a - degreeToRadians b = degreeToRadians (a - b).
Proof. unfold degreeToRadians. field. Qed.

Lemma degreeToRadians_0 : degreeToRadians 0 = 0.
Proof. unfold degreeToRadians. field. Qed.

(** What [castRay] returns is determined by the ray found. *)
Lemma castRay_inv (fuel : nat) (d : Data) (rayCount : nat) (rayAngle : R) (h : RayHit) :
  castRay fuel d rayCount rayAngle = Done h ->
  findWall fuel d rayAngle = Done (hit_ray h, hit_wall h)
  /\ hit_rayCount h = rayCount
  /\ hit_rayAngle h = rayAngle
  /\ hit_rawDistance h = rawDistance d (hit_ray h)
  /\ hit_distance h = fishEyeFix d rayAngle (rawDistance d (hit_ray h))
  /\ hit_wallHeight h = Zfloor (projection_halfHeight d / hit_distance h)
  /\ wallTexture d (hit_wall h) = Some (hit_texture h)
  /\ hit_texturePositionX h
     = texturePositionX (texture_width (hit_texture h)) (hit_ray h).
Proof.
  unfold castRay.
  destruct (findWall fuel d rayAngle) as [[ray wall]| |]; cbn [bind]; try discriminate.
  destruct (wallTexture d wall) as [texture|] eqn:Et; try discriminate.
  intros E. injection E as <-. cbn. auto 10.
Qed.

(** The column in the middle of an even-width projection looks straight
    ahead. *)
Lemma centre_column_angle (d : Data) (k : nat) :
  0 < projection_width d -> 2 * INR k = projection_width d ->
  rayAngleAt d k = player_angle (player d).
Proof.
  intros Hw Hk. rewrite rayAngleAt_eq. unfold player_halfFov, incrementAngle.
  rewrite <- Hk. field. lra.
Qed.

(** C5. Whatever column [castRay] completes, the distance it reports is
    the Euclidean distance from the player to the hit point multiplied by
    the cosine of (ray angle - player angle), the angle taken in degrees;
    when the ray angle is the player angle the two distances coincide. *)
Theorem castRay_fish_eye (fuel : nat) (d : Data) (rayCount : nat) (rayAngle : R)
  (h : RayHit) :
  castRay fuel d rayCount rayAngle = Done h ->
  hit_rawDistance h
  = sqrt ((player_x (player d) - ray_x (hit_ray h)) ^ 2
          + (player_y (player d) - ray_y (hit_ray h)) ^ 2)
  /\ hit_distance h
     = hit_rawDistance h * cos (degreeToRadians (rayAngle - player_angle (player d)))
  /\ (rayAngle = player_angle (player d) -> hit_distance h = hit_rawDistance h).
Proof.
  intros Hrun.
  destruct (castRay_inv _ _ _ _ _ Hrun) as [_ [_ [_ [Hraw [Hfix _]]]]].
  split; [exact Hraw |]. split.
  - rewrite Hfix, Hraw. reflexivity.
  - intros ->. rewrite Hfix, Hraw. unfold fishEyeFix.
    rewrite Rminus_diag, degreeToRadians_0, cos_0. ring.
Qed.

(** C6. The distance of a floor pixel after the correction of line 300 is
    the distance of line 299 divided by the cosine of
    (ray angle - player angle), and this corrected distance is the one that
    places the sampled world point. *)
Theorem floor_distance_correction (d : Data) (rayAngle y : R) :
  floorCorrected d rayAngle (floorDistance d y)
  = floorDistance d y / cos (degreeToRadians (rayAngle - player_angle (player d)))
  /\ floorPoint d rayAngle y
     = (floorDistance d y / cos (degreeToRadians (rayAngle - player_angle (player d)))
        * cos (degreeToRadians rayAngle) + player_x (player d),
        floorDistance d y / cos (degreeToRadians (rayAngle - player_angle (player d)))
        * sin (degreeToRadians rayAngle) + player_y (player d)).
Proof.
  assert (E : forall dist, floorCorrected d rayAngle dist
              = dist / cos (degreeToRadians (rayAngle - player_angle (player d)))).
  { intros dist. unfold floorCorrected.
    rewrite degreeToRadians_sub.
    replace (player_angle (player d) - rayAngle)
      with (- (rayAngle - player_angle (player d))) by ring.
    replace (degreeToRadians (- (rayAngle - player_angle (player d))))
      with (- degreeToRadians (rayAngle - player_angle (player d)))
      by (unfold degreeToRadians; field).
    rewrite cos_neg. reflexivity. }
  split; [apply E |].
  unfold floorPoint. rewrite E. reflexivity.
Qed.

(** C3, as claimed, fails on the shipped configuration: with a projection
    120 rows high the bottom row 119 gets 120 / 118. *)
Lemma floorDistance_bottom_row_not_1 :
  let d := default_data [] [] [] in
  floorDistance d (projection_height d - 1) <> 1.
Proof.
  cbn. unfold floorDistance, projection_height. cbn. lra.
Qed.

(** C3, amended. For a projection more than 2 rows high, the bottom row
    [y = projectionHeight - 1] gets the distance
    [projectionHeight / (projectionHeight - 2)], which is strictly greater
    than 1; the formula yields exactly 1 only at [y = projectionHeight],
    one row below the last one drawn. *)
Theorem floorDistance_bottom_row (d : Data) :
  2 < projection_height d ->
  floorDistance d (projection_height d - 1)
  = projection_height d / (projection_height d - 2)
  /\ 1 < floorDistance d (projection_height d - 1)
  /\ floorDistance d (projection_height d) = 1
  /\ (forall y, floorDistance d y = 1 -> y = projection_height d).
Proof.
  intros Hh. unfold floorDistance. set (h := projection_height d) in *.
  assert (E : h / (2 * (h - 1) - h) = h / (h - 2)) by (f_equal; ring).
  split; [exact E |]. split; [| split].
  - rewrite E. apply (Rmult_lt_reg_r (h - 2)); [lra |].
    unfold Rdiv. rewrite Rmult_assoc, Rinv_l by lra. lra.
  - field. lra.
  - intros y Hy.
    destruct (Req_dec (2 * y - h) 0) as [Z|NZ].
    + rewrite Z in Hy. unfold Rdiv in Hy. rewrite Rinv_0 in Hy. lra.
    + apply (Rmult_eq_compat_r (2 * y - h)) in Hy.
      unfold Rdiv in Hy. rewrite Rmult_assoc, Rinv_l in Hy by exact NZ. lra.
Qed.

Lemma floorDistance_bottom_row_witness :
  let d := default_data [] [] [] in
  2 < projection_height d /\ 1 < floorDistance d (projection_height d - 1).
Proof.
  intros d.
  assert (H : 2 < projection_height d) by (unfold projection_height; cbn; lra).
  split; [exact H |].
  exact (proj1 (proj2 (floorDistance_bottom_row d H))).
Defined.

(** ** Texture lookups *)

Lemma tile_In (m : Map) (row col t : Z) :
  tile m row col = Done (Some t) -> exists cells, In cells m /\ In t cells.
Proof.
  unfold tile. destruct (Js.idx m row) as [cells|] eqn:Er; [| discriminate].
  intros E. injection E as Ec.
  exists cells. split; [eapply idx_inv; eauto | eapply idx_inv; eauto].
Qed.

Lemma textured_wall (d : Data) (row col : Z) (wall : option Z) :
  texturedb d = true ->
  tile (map d) row col = Done wall -> Js.eq0 wall = false ->
  wall = None \/ exists texture, wallTexture d wall = Some texture.
Proof.
  intros Ht Htile H0. destruct wall as [t|]; [right | now left].
  destruct (tile_In _ _ _ _ Htile) as [cells [Hrow Hcell]].
  unfold texturedb in Ht. rewrite forallb_forall in Ht.
  specialize (Ht _ Hrow). rewrite forallb_forall in Ht.
  specialize (Ht _ Hcell). cbn in H0. rewrite H0 in Ht. cbn in Ht.
  apply andb_prop in Ht as [Hlo Hhi].
  apply Z.leb_le in Hlo, Hhi.
  unfold wallTexture. apply idx_Some. lia.
Qed.

(** On an enclosed map whose tiles all have a texture, every column is
    computed without error. *)
Lemma castRay_total (d : Data) (rayCount : nat) (rayAngle : R) :
  enclosed (map d) ->
  strictly_inside (map d) (player_x (player d)) (player_y (player d)) ->
  1 <= precision d ->
  texturedb d = true ->
  exists fuel h,
    (forall fuel', (fuel <= fuel')%nat -> castRay fuel' d rayCount rayAngle = Done h)
    /\ in_bounds (map d) (ray_x (hit_ray h)) (ray_y (hit_ray h))
    /\ 0 < hit_rawDistance h.
Proof.
  intros Henc Hin Hp Htex.
  destruct (findWall_total d rayAngle ltac:(lra))
    as [fuel [ray [wall [Hrun [H0 [Hraw Hmap]]]]]].
  destruct (Hmap Henc Hin Hp) as [Hb Htile].
  assert (Hw : exists texture, wallTexture d wall = Some texture).
  { destruct (textured_wall d _ _ _ Htex Htile H0) as [->|Hw]; [| exact Hw].
    rewrite (tile_cell _ Henc _ _ Hb) in Htile. discriminate. }
  destruct Hw as [texture Hw].
  exists fuel. eexists. split; [| split].
  - intros fuel' Hle. unfold castRay. rewrite (Hrun _ Hle). cbn [bind].
    rewrite Hw. reflexivity.
  - exact Hb.
  - exact Hraw.
Qed.

Lemma castRay_fish_eye_witness :
  let d := default_data [] [] [] in
  exists fuel h,
    castRay fuel d 80 (player_angle (player d)) = Done h
    /\ hit_distance h = hit_rawDistance h.
Proof.
  intros d.
  destruct (castRay_total d 80 (player_angle (player d))) as [fuel [h [Hrun _]]].
  - reflexivity.
  - unfold strictly_inside, map_width, map_height. cbn. lra.
  - cbn. lra.
  - reflexivity.
  - exists fuel, h. split; [apply Hrun; lia |].
    apply (castRay_fish_eye fuel d 80 (player_angle (player d)) h).
    + apply Hrun. lia.
    + reflexivity.
Defined.

(** ** Texture coordinates *)

(** For a non-negative [a] and a positive whole [w], flooring [a % w] is
    the same as reducing [floor a] modulo [w]. *)
Lemma floor_rem_mod (a : R) (w : Z) :
  0 <= a -> (0 < w)%Z ->
  Zfloor (Js.rem a (IZR w)) = (Zfloor a mod w)%Z
  /\ (0 <= Zfloor (Js.rem a (IZR w)) < w)%Z.
Proof.
  intros Ha Hw.
  assert (HW : 0 < IZR w) by (apply IZR_lt in Hw; exact Hw).
  destruct (rem_nonneg a (IZR w) Ha HW) as [Erem [Rlo Rhi]].
  set (q := Zfloor (a / IZR w)) in *.
  assert (Efl : Zfloor (Js.rem a (IZR w)) = (Zfloor a - w * q)%Z).
  { rewrite Erem.
    replace (a - IZR w * IZR q) with (a + IZR (- (w * q)))
      by (rewrite opp_IZR, mult_IZR; ring).
    rewrite Zfloor_addz. lia. }
  assert (Hrange : (0 <= Zfloor (Js.rem a (IZR w)) < w)%Z).
  { pose proof (Zfloor_bound (Js.rem a (IZR w))) as [Fl Fh]. split.
    - apply Zfloor_lub. simpl. exact Rlo.
    - apply lt_IZR. lra. }
  split; [| exact Hrange].
  apply (Z.mod_unique _ _ q); [left; exact Hrange | lia].
Qed.

Lemma texturePositionX_spec (w : Z) (ray : Ray) :
  (0 < w)%Z -> 0 <= ray_x ray + ray_y ray ->
  texturePositionX w ray = texCol_spec w (ray_x ray) (ray_y ray)
  /\ (0 <= texturePositionX w ray < w)%Z.
Proof.
  intros Hw Hs. unfold texturePositionX, texCol_spec.
  apply floor_rem_mod; [| exact Hw].
  apply Rmult_le_pos; [| exact Hs]. apply IZR_le. lia.
Qed.

(** C9. For every column [castRay] completes with a hit whose coordinates
    do not sum to a negative number (in particular every hit inside the
    map bounds) and a texture of positive width, the texture column is
    [floor (textureWidth * (hitX + hitY)) mod textureWidth], and it lies in
    [[0, textureWidth)]. *)
Theorem castRay_texture_column (fuel : nat) (d : Data) (rayCount : nat)
  (rayAngle : R) (h : RayHit) :
  castRay fuel d rayCount rayAngle = Done h ->
  (0 < texture_width (hit_texture h))%Z ->
  0 <= ray_x (hit_ray h) + ray_y (hit_ray h) ->
  hit_texturePositionX h
  = texCol_spec (texture_width (hit_texture h)) (ray_x (hit_ray h)) (ray_y (hit_ray h))
  /\ (0 <= hit_texturePositionX h < texture_width (hit_texture h))%Z.
Proof.
  intros Hrun Hw Hs.
  destruct (castRay_inv _ _ _ _ _ Hrun) as [_ [_ [_ [_ [_ [_ [_ Htpx]]]]]]].
  rewrite Htpx. now apply texturePositionX_spec.
Qed.

Lemma wallTexture_In (d : Data) (wall : option Z) (texture : Texture) :
  wallTexture d wall = Some texture -> In texture (textures d).
Proof.
  destruct wall as [t|]; [| discriminate]. cbn. intros E.
  eapply idx_inv; eauto.
Qed.

Lemma castRay_texture_column_witness :
  let d := default_data [] [] [] in
  exists fuel h,
    castRay fuel d 0 (rayAngleAt d 0) = Done h
    /\ (0 <= hit_texturePositionX h < texture_width (hit_texture h))%Z.
Proof.
  intros d.
  destruct (castRay_total d 0 (rayAngleAt d 0)) as [fuel [h [Hrun [Hin _]]]].
  - reflexivity.
  - unfold strictly_inside, map_width, map_height. cbn. lra.
  - cbn. lra.
  - reflexivity.
  - exists fuel, h. split; [apply Hrun; lia |].
    refine (proj2 (castRay_texture_column fuel d 0 (rayAngleAt d 0) h _ _ _)).
    + apply Hrun. lia.
    + assert (Hh := Hrun fuel (Nat.le_refl _)).
      destruct (castRay_inv _ _ _ _ _ Hh) as [_ [_ [_ [_ [_ [_ [Ht _]]]]]]].
      apply wallTexture_In in Ht. cbn in Ht.
      destruct Ht as [<-|[<-|[]]]; cbn; lia.
    + destruct Hin as [Hx Hy]. lra.
Defined.

Lemma outsideCell_false (m : Map) (mapX mapY : Z) :
  outsideCell m mapX mapY = false <->
  (0 <= mapX < Z.of_nat (length (nth 0%nat m [])))%Z
  /\ (0 <= mapY < Z.of_nat (length m))%Z.
Proof.
  unfold outsideCell. rewrite !orb_false_iff.
  rewrite !Z.ltb_ge, !Z.geb_leb, !Z.leb_gt. lia.
Qed.

(** A whole-number coordinate times a positive texture size, reduced with
    [%], is a valid texture coordinate. *)
Lemma floor_scaled_rem (t : R) (size : Z) :
  (0 <= Zfloor t)%Z -> (0 < size)%Z ->
  (0 <= Z.rem (Zfloor (t * IZR size)) size < size)%Z.
Proof.
  intros Ht Hs.
  assert (H0 : 0 <= t).
  { pose proof (Zfloor_bound t) as [Fl _]. apply IZR_le in Ht. simpl in Ht. lra. }
  assert (Hp : (0 <= Zfloor (t * IZR size))%Z).
  { apply Zfloor_lub. simpl. apply Rmult_le_pos; [exact H0 |].
    apply IZR_le. lia. }
  rewrite Z.rem_mod_nonneg by lia.
  apply Z.mod_pos_bound. exact Hs.
Qed.

(** An index built from in-range coordinates falls inside the colour
    array. *)
Lemma image_index (img : Image) (tx ty : Z) :
  image_ok img ->
  (0 <= tx < image_width img)%Z -> (0 <= ty < image_height img)%Z ->
  exists c, Js.idx (image_data img) (tx + ty * image_width img) = Some c.
Proof.
  intros [Hw [Hh Hlen]] Hx Hy. apply idx_Some. rewrite Hlen. nia.
Qed.



(** ** Out of bounds *)

Lemma tile_cell_in_range (m : Map) (mapX mapY : Z) :
  outsideCell m mapX mapY = false -> exists t, tile m mapY mapX = Done t.
Proof.
  intros H. apply outsideCell_false in H as [_ Hy].
  unfold tile. destruct (idx_Some m mapY Hy) as [cells ->]. eauto.
Qed.

(** What the two bounds checks themselves do.  (1) If the next sample
    point of a ray is outside the coordinate bounds, the wall finder
    stops there with wall id 1, and (2) whenever it stops outside the
    bounds the id is 1; (3) it never raises.  (4) A floor sample whose
    floored world point is outside the map leaves the buffer as it is,
    and (5) inside the map the tile lookup succeeds and a tile without a
    floor texture leaves the buffer as it is.  What becomes of the hit
    recorded in case (1) is followed up in the last part of the file. *)
Lemma out_of_bounds_recovered :
  (forall fuel m rc rs ray,
      outside m (ray_x ray + rc) (ray_y ray + rs) = true ->
      wallFinder (S fuel) m rc rs ray
      = Done (mkRay (ray_x ray + rc) (ray_y ray + rs), Some 1%Z))
  /\ (forall fuel m rc rs ray ray' wall,
        wallFinder fuel m rc rs ray = Done (ray', wall) ->
        outside m (ray_x ray') (ray_y ray') = true -> wall = Some 1%Z)
  /\ (forall fuel m rc rs ray, wallFinder fuel m rc rs ray <> TypeError)
  /\ (forall d x1 y tilex tiley buf,
        outsideCell (map d) (Zfloor tilex) (Zfloor tiley) = true ->
        floorSample d x1 y tilex tiley buf = Done buf)
  /\ (forall d x1 y tilex tiley buf,
        outsideCell (map d) (Zfloor tilex) (Zfloor tiley) = false ->
        exists t,
          tile (map d) (Zfloor tiley) (Zfloor tilex) = Done t
          /\ (floorTexture d t = None -> floorSample d x1 y tilex tiley buf = Done buf)).
Proof.
  split; [| split; [| split; [| split]]].
  - intros fuel m rc rs ray Hout.
    rewrite wallFinder_S. unfold advance. cbn [fst snd ray_x ray_y].
    rewrite Hout. reflexivity.
  - intros fuel m rc rs ray ray' wall Hrun Hout.
    destruct (wallFinder_result _ _ _ _ _ _ _ Hrun) as [_ [_ Hw]].
    rewrite Hout in Hw. exact Hw.
  - intros. apply wallFinder_never_raises.
  - intros d x1 y tilex tiley buf Hout. unfold floorSample.
    rewrite Hout. reflexivity.
  - intros d x1 y tilex tiley buf Hin.
    destruct (tile_cell_in_range _ _ _ Hin) as [t Ht].
    exists t. split; [exact Ht |]. intros Hnone. unfold floorSample.
    rewrite Hin, Ht. cbn [bind]. rewrite Hnone. reflexivity.
Qed.

(** ** Collision detection *)

(** What the two tests of the collision detection commit: the second one
    looks at the row of the [y] left by the first. *)
Lemma collide_commits (m : Map) (p : Player) (newX newY : R) (checkX checkY : Z)
  (t1 t2 : option Z) :
  tile m checkY (Zfloor (player_x p)) = Done t1 ->
  tile m (Zfloor (if Js.eq0 t1 then newY else player_y p)) checkX = Done t2 ->
  exists p',
    collide m p newX newY checkX checkY = Done p'
    /\ player_y p' = (if Js.eq0 t1 then newY else player_y p)
    /\ player_x p' = (if Js.eq0 t2 then newX else player_x p).
Proof.
  intros H1 H2. unfold collide. rewrite H1. cbn [bind].
  replace (player_y (if Js.eq0 t1 then set_y p newY else p))
    with (if Js.eq0 t1 then newY else player_y p)
    by (destruct (Js.eq0 t1); reflexivity).
  rewrite H2. cbn [bind]. eexists. split; [reflexivity |].
  destruct (Js.eq0 t1), (Js.eq0 t2); cbn; auto.
Qed.

(** Sliding: when the tile ahead on the Y axis blocks and the one ahead
    on the X axis, in the player's row, is free, only [x] moves; when the
    tile ahead on the Y axis is free, [y] moves whatever the second test
    finds. *)
Lemma collide_slides (m : Map) (p p' : Player) (newX newY : R) (checkX checkY : Z)
  (t1 : option Z) :
  tile m checkY (Zfloor (player_x p)) = Done t1 ->
  collide m p newX newY checkX checkY = Done p' ->
  (Js.eq0 t1 = true -> player_y p' = newY)
  /\ (Js.eq0 t1 = false ->
      tile m (Zfloor (player_y p)) checkX = Done (Some 0%Z) ->
      player_y p' = player_y p /\ player_x p' = newX).
Proof.
  intros H1 H. unfold collide in H. rewrite H1 in H. cbn [bind] in H. split.
  - intros E. rewrite E in H. cbn [player_y set_y] in H.
    destruct (tile m (Zfloor newY) checkX) as [t2| |]; cbn [bind] in H; try discriminate.
    injection H as <-. destruct (Js.eq0 t2); reflexivity.
  - intros E H2. rewrite E in H. rewrite H2 in H. cbn in H.
    injection H as <-. auto.
Qed.

Lemma sqrt2_bounds : 141 / 100 < sqrt 2 < 142 / 100.
Proof.
  pose proof (sqrt_sqrt 2 ltac:(lra)) as Hs.
  pose proof (sqrt_pos 2) as Hp.
  split; nra.
Qed.

Lemma degreeToRadians_45 : degreeToRadians 45 = PI / 4.
Proof. unfold degreeToRadians. field. Qed.

Lemma diagonal_step_bounds : 704 / 10000 < diagonal_step < 710 / 10000.
Proof.
  unfold diagonal_step. rewrite degreeToRadians_45, cos_PI4.
  pose proof sqrt2_bounds as [Hlo Hhi].
  assert (Hinv : 1 / sqrt 2 * sqrt 2 = 1) by (field; lra).
  split; nra.
Qed.

Lemma sin_diagonal_step : sin (degreeToRadians 45) * (1 / 10) = diagonal_step.
Proof.
  unfold diagonal_step. now rewrite degreeToRadians_45, sin_PI4, cos_PI4.
Qed.

(** *** Reaching the corner *)

(** Ten ticks with the left key held turn the shipped player to 45
    degrees. *)
Lemma turning_tick (j : nat) :
  (j < 10)%nat -> movePlayer (turning_data j) = Done (player (turning_data (S j))).
Proof.
  intros Hj. apply lt_INR in Hj. pose proof (pos_INR j) as H0.
  rewrite (INR_IZR_INZ 10) in Hj. change (Z.of_nat 10) with 10%Z in Hj.
  unfold movePlayer, turning_data. cbn [key with_key key_up key_down key_left
    key_right player with_player bind].
  unfold turnLeft, set_angle, default_player. cbn [player_angle player_speed
    speed_rotation player_fov player_x player_y player_radius].
  replace (Js.ltb (90 - INR j * (45 / 10) - 45 / 10) 0) with false
    by (symmetry; apply ltb_false; lra).
  rewrite rem_small by lra.
  rewrite S_INR. do 2 f_equal. ring.
Qed.

Lemma turning_ticks (n : nat) : forall j,
  (j + n <= 10)%nat -> ticks n (turning_data j) = Done (turning_data (j + n)).
Proof.
  induction n as [|n IH]; intros j Hj.
  - rewrite Nat.add_0_r. reflexivity.
  - cbn [ticks]. rewrite turning_tick by lia. cbn [bind].
    change (with_player (turning_data j) (player (turning_data (S j))))
      with (turning_data (S j)).
    rewrite IH by lia. f_equal. f_equal. lia.
Qed.

(** While the corner is more than a step away both tests look at free
    tiles and both axes move; so does the fourteenth tick, which looks
    ahead into row and column 3. *)
Lemma forward_tick (k : nat) :
  (k < 14)%nat -> movePlayer (forward_data k) = Done (walking (S k)).
Proof.
  intros Hk. pose proof (pos_INR k) as H0.
  pose proof diagonal_step_bounds as [Hlo Hhi].
  unfold movePlayer, forward_data. cbn [key with_key key_up key_down key_left
    key_right player with_player map default_data].
  unfold moveUp, walking. cbn [player_angle player_speed speed_movement player_x
    player_y player_radius].
  rewrite sin_diagonal_step. fold diagonal_step.
  set (s := diagonal_step) in *.
  assert (Hfinal :
    Done (mkPlayer 60 (2 + INR k * s + s) (2 + INR k * s + s) 45
            (mkSpeed (1 / 10) (45 / 10)) (3 / 10))
    = Done (mkPlayer 60 (2 + INR (S k) * s) (2 + INR (S k) * s) 45
              (mkSpeed (1 / 10) (45 / 10)) (3 / 10))).
  { rewrite S_INR. do 2 f_equal; ring. }
  destruct (le_lt_dec k 12) as [Hlow|Hlast].
  - apply le_INR in Hlow. rewrite (INR_IZR_INZ 12) in Hlow.
    change (Z.of_nat 12) with 12%Z in Hlow.
    assert (Fx : Zfloor (2 + INR k * s) = 2%Z) by (floor_is 2%Z).
    assert (Fc : Zfloor (2 + INR k * s + s + s * (3 / 10)) = 2%Z) by (floor_is 2%Z).
    assert (Fn : Zfloor (2 + INR k * s + s) = 2%Z) by (floor_is 2%Z).
    unfold collide. cbn [player_x]. rewrite Fc, Fx.
    change (tile default_map 2 2) with (@Done (option Z) (Some 0%Z)).
    cbn [bind Js.eq0 Z.eqb set_y player_y player_x player_fov player_angle
         player_speed player_radius]. rewrite Fn.
    change (tile default_map 2 2) with (@Done (option Z) (Some 0%Z)).
    cbn [bind Js.eq0 Z.eqb set_x player_y player_x player_fov player_angle
         player_speed player_radius].
    exact Hfinal.
  - assert (k = 13)%nat by lia. subst k.
    rewrite (INR_IZR_INZ 13) in *. change (Z.of_nat 13) with 13%Z in *.
    assert (Fx : Zfloor (2 + 13 * s) = 2%Z) by floor_is 2%Z.
    assert (Fc : Zfloor (2 + 13 * s + s + s * (3 / 10)) = 3%Z) by floor_is 3%Z.
    assert (Fn : Zfloor (2 + 13 * s + s) = 2%Z) by floor_is 2%Z.
    unfold collide. cbn [player_x]. rewrite Fc, Fx.
    change (tile default_map 3 2) with (@Done (option Z) (Some 0%Z)).
    cbn [bind Js.eq0 Z.eqb set_y player_y player_x player_fov player_angle
         player_speed player_radius]. rewrite Fn.
    change (tile default_map 2 3) with (@Done (option Z) (Some 0%Z)).
    cbn [bind Js.eq0 Z.eqb set_x player_y player_x player_fov player_angle
         player_speed player_radius].
    exact Hfinal.
Qed.

Lemma forward_ticks (n : nat) : forall k,
  (k + n <= 14)%nat -> ticks n (forward_data k) = Done (forward_data (k + n)).
Proof.
  induction n as [|n IH]; intros k Hk.
  - rewrite Nat.add_0_r. reflexivity.
  - cbn [ticks]. rewrite forward_tick by lia. cbn [bind].
    change (with_player (forward_data k) (walking (S k))) with (forward_data (S k)).
    rewrite IH by lia. f_equal. f_equal. lia.
Qed.

(** C4, at a corner. The state is reached from the shipped one: ten
    ticks with the left key held turn the player to 45 degrees, fourteen
    ticks with the forward key held bring them to about (2.99, 2.99).  On
    the next forward tick the tile at row [floor y = 2], column
    [checkX = 3] is 0, so a test on the row the player stands in would
    commit the X move; the source has already moved [y] into row 3 and
    tests row 3, column 3 (a wall): [y] advances and [x] stays where it
    was. *)
Theorem movePlayer_corner :
  let p := player corner_data in
  let playerCos := cos (degreeToRadians (player_angle p)) * speed_movement (player_speed p) in
  let playerSin := sin (degreeToRadians (player_angle p)) * speed_movement (player_speed p) in
  let newX := player_x p + playerCos in
  let newY := player_y p + playerSin in
  let checkX := Zfloor (newX + playerCos * player_radius p) in
  let checkY := Zfloor (newY + playerSin * player_radius p) in
  ticks 10 (turning_data 0) = Done (turning_data 10)
  /\ player_angle (player (turning_data 10)) = player_angle (player (forward_data 0))
  /\ ticks 14 (forward_data 0) = Done corner_data
  /\ tile (map corner_data) checkY (Zfloor (player_x p)) = Done (Some 0%Z)
  /\ tile (map corner_data) (Zfloor (player_y p)) checkX = Done (Some 0%Z)
  /\ newX <> player_x p
  /\ exists p',
       movePlayer corner_data = Done p'
       /\ player_y p' = newY
       /\ player_x p' = player_x p.
Proof.
  cbv zeta.
  split; [exact (turning_ticks 10 0 (Nat.le_refl _)) |].
  split.
  { cbn [turning_data forward_data walking player with_key with_player set_angle
         player_angle]. rewrite INR_IZR_INZ. simpl. lra. }
  split; [exact (forward_ticks 14 0 (Nat.le_refl _)) |].
  pose proof diagonal_step_bounds as [Hlo Hhi].
  unfold corner_data, forward_data, walking.
  cbn [player with_key with_player player_angle player_speed speed_movement
       player_x player_y player_radius map default_data key key_up key_down
       key_left key_right].
  rewrite sin_diagonal_step. fold diagonal_step.
  set (s := diagonal_step) in *.
  rewrite (INR_IZR_INZ 14). change (Z.of_nat 14) with 14%Z.
  assert (Fx : Zfloor (2 + 14 * s) = 2%Z) by floor_is 2%Z.
  assert (Fc : Zfloor (2 + 14 * s + s + s * (3 / 10)) = 3%Z) by floor_is 3%Z.
  assert (Fn : Zfloor (2 + 14 * s + s) = 3%Z) by floor_is 3%Z.
  set (x0 := 2 + 14 * s) in *.
  rewrite Fx, Fc.
  split; [reflexivity |]. split; [reflexivity |]. split; [lra |].
  unfold movePlayer.
  cbn [player with_key with_player key key_up key_down key_left key_right map
       default_data].
  unfold moveUp. cbn [player_angle player_speed speed_movement player_x player_y
    player_radius].
  rewrite sin_diagonal_step. fold diagonal_step. fold s. rewrite Fc.
  destruct (collide_commits default_map
              (mkPlayer 60 x0 x0 45 (mkSpeed (1 / 10) (45 / 10)) (3 / 10))
              (x0 + s) (x0 + s) 3 3 (Some 0%Z) (Some 2%Z))
    as [p' [Hrun [Hy Hx]]].
  - cbn [player_x]. rewrite Fx. reflexivity.
  - cbn [Js.eq0 Z.eqb]. rewrite Fn. reflexivity.
  - rewrite Hrun. cbn [bind]. exists p'. split; [reflexivity |].
    cbn in Hy, Hx. auto.
Qed.

(** ** Drawing never reads a missing colour *)

Lemma image_okb_ok (img : Image) : image_okb img = true -> image_ok img.
Proof.
  unfold image_okb, image_ok. rewrite !andb_true_iff.
  rewrite !Z.ltb_lt, Z.eqb_eq. tauto.
Qed.

Lemma drawLine_from_total (d : Data) (x : R) (c : Color) :
  forall n y buf, exists buf', drawLine_from n d x y (Some c) buf = Done buf'.
Proof.
  induction n as [|n IH]; intros y buf; cbn [drawLine_from drawPixel bind].
  - eauto.
  - apply IH.
Qed.

Lemma texture_color_total (texture : Texture) (tpx i : Z) :
  texture_okb texture = true ->
  (0 <= tpx < texture_width texture)%Z -> (0 <= i < texture_height texture)%Z ->
  exists c, texture_color texture tpx i = Done (Some c).
Proof.
  destruct texture as [w h bitmap colors|img]; cbn [texture_okb texture_width
    texture_height texture_color]; intros Hok Hx Hi.
  - rewrite !andb_true_iff in Hok. destruct Hok as [[[_ _] Hrows] Hcells].
    apply Z.eqb_eq in Hrows. rewrite forallb_forall in Hcells.
    destruct (idx_Some bitmap i ltac:(lia)) as [cells Ecells]. rewrite Ecells.
    specialize (Hcells cells (proj2 (idx_inv _ _ _ Ecells))).
    apply andb_prop in Hcells as [Hlen Hpal]. apply Z.eqb_eq in Hlen.
    rewrite forallb_forall in Hpal.
    destruct (idx_Some cells tpx ltac:(lia)) as [c Ec]. rewrite Ec.
    specialize (Hpal c (proj2 (idx_inv _ _ _ Ec))).
    apply andb_prop in Hpal as [Hlo Hhi]. apply Z.leb_le in Hlo. apply Z.ltb_lt in Hhi.
    destruct (idx_Some colors c ltac:(lia)) as [col Ecol]. rewrite Ecol. eauto.
  - destruct (image_index img tpx i (image_okb_ok _ Hok) Hx Hi) as [c Ec].
    rewrite Ec. eauto.
Qed.

Lemma drawTexture_from_total (d : Data) (x yInc : R) (tpx : Z) (texture : Texture) :
  texture_okb texture = true ->
  (0 <= tpx < texture_width texture)%Z ->
  forall n i y buf,
    (0 <= i)%Z -> (i + Z.of_nat n = texture_height texture)%Z ->
    exists buf', drawTexture_from n d x yInc tpx texture i y buf = Done buf'.
Proof.
  intros Hok Hx.
  induction n as [|n IH]; intros i y buf Hi Hn; cbn [drawTexture_from].
  - eauto.
  - destruct (texture_color_total texture tpx i Hok Hx ltac:(lia)) as [c ->].
    cbn [bind]. unfold drawLine.
    destruct (drawLine_from_total d x c
                (Js.for_count y (IZR (Zfloor (y + (yInc + 2))))) y buf) as [buf1 ->].
    cbn [bind]. apply IH; lia.
Qed.

Lemma drawTexture_total (d : Data) (x : R) (wallHeight tpx : Z) (texture : Texture)
  (buf : Buffer) :
  texture_okb texture = true ->
  (0 <= tpx < texture_width texture)%Z ->
  exists buf', drawTexture d x wallHeight tpx texture buf = Done buf'.
Proof.
  intros Hok Hx. unfold drawTexture.
  apply drawTexture_from_total; try assumption; [lia |].
  assert (0 < texture_height texture)%Z; [| lia].
  destruct texture as [w h bitmap colors|img]; cbn in *.
  - rewrite !andb_true_iff in Hok. destruct Hok as [[[_ Hh] _] _].
    now apply Z.ltb_lt in Hh.
  - apply image_okb_ok in Hok. apply Hok.
Qed.

Lemma drawBackground_from_total (d : Data) (x offset : R) (bg : Image) :
  image_okb bg = true -> 0 <= offset ->
  forall n y buf,
    0 <= y ->
    exists buf', drawBackground_from n d x offset (Some bg) y buf = Done buf'.
Proof.
  intros Hok Hoff. pose proof (image_okb_ok _ Hok) as Hbg.
  induction n as [|n IH]; intros y buf Hy; cbn [drawBackground_from].
  - eauto.
  - destruct (floor_rem_mod offset (image_width bg) Hoff (proj1 Hbg)) as [_ Tx].
    destruct (floor_rem_mod y (image_height bg) Hy (proj1 (proj2 Hbg))) as [_ Ty].
    destruct (image_index bg _ _ Hbg Tx Ty) as [c ->].
    cbn [drawPixel bind]. apply IH. lra.
Qed.

Lemma drawBackground_total (d : Data) (x y2 : R) (bg : Image) (buf : Buffer) :
  image_okb bg = true -> 0 <= player_angle (player d) + x ->
  exists buf', drawBackground d x 0 y2 (Some bg) buf = Done buf'.
Proof.
  intros Hok Hoff. unfold drawBackground.
  apply drawBackground_from_total; try assumption. lra.
Qed.

(** A floor sample inside the map with a well-formed texture is taken
    inside that texture. *)
Lemma floorSample_colour (d : Data) (x1 y tilex tiley : R) (buf : Buffer)
  (t : option Z) (texture : Image) :
  outsideCell (map d) (Zfloor tilex) (Zfloor tiley) = false ->
  tile (map d) (Zfloor tiley) (Zfloor tilex) = Done t ->
  floorTexture d t = Some texture ->
  image_ok texture ->
  (0 <= floorTextureX texture tilex < image_width texture)%Z
  /\ (0 <= floorTextureY texture tiley < image_height texture)%Z
  /\ exists c,
       Js.idx (image_data texture)
         (floorTextureX texture tilex + floorTextureY texture tiley * image_width texture)
       = Some c
       /\ floorSample d x1 y tilex tiley buf = drawPixel d x1 y (Some c) buf.
Proof.
  intros Hin Htile Htex Hok.
  apply outsideCell_false in Hin as Hcell. destruct Hcell as [Hx Hy].
  assert (Tx : (0 <= floorTextureX texture tilex < image_width texture)%Z).
  { apply floor_scaled_rem; [lia | apply Hok]. }
  assert (Ty : (0 <= floorTextureY texture tiley < image_height texture)%Z).
  { apply floor_scaled_rem; [lia | apply Hok]. }
  split; [exact Tx |]. split; [exact Ty |].
  destruct (image_index texture _ _ Hok Tx Ty) as [c Hc].
  exists c. split; [exact Hc |].
  unfold floorSample. rewrite Hin, Htile. cbn [bind]. rewrite Htex, Hc. reflexivity.
Qed.

(** C10. For a floor sample that passes the bounds check of line 310 and
    whose tile has a floor texture (of positive size, with one colour per
    pixel), both texture coordinates are inside the texture, the sampled
    index holds a colour, and the pixel is drawn with that colour: no
    [undefined] colour reaches [drawPixel]. *)
Theorem floor_texture_coords_in_range (d : Data) (x1 y tilex tiley : R)
  (buf : Buffer) (t : option Z) (texture : Image) :
  outsideCell (map d) (Zfloor tilex) (Zfloor tiley) = false ->
  tile (map d) (Zfloor tiley) (Zfloor tilex) = Done t ->
  floorTexture d t = Some texture ->
  image_ok texture ->
  (0 <= floorTextureX texture tilex < image_width texture)%Z
  /\ (0 <= floorTextureY texture tiley < image_height texture)%Z
  /\ (0 <= floorTextureX texture tilex + floorTextureY texture tiley * image_width texture
      < Z.of_nat (length (image_data texture)))%Z
  /\ exists c,
       Js.idx (image_data texture)
         (floorTextureX texture tilex + floorTextureY texture tiley * image_width texture)
       = Some c
       /\ floorSample d x1 y tilex tiley buf = drawPixel d x1 y (Some c) buf.
Proof.
  intros Hin Htile Htex Hok.
  destruct (floorSample_colour d x1 y tilex tiley buf t texture Hin Htile Htex Hok)
    as [Tx [Ty [c [Hc Hdraw]]]].
  split; [exact Tx |]. split; [exact Ty |]. split; [| eauto].
  apply (idx_inv _ _ _ Hc).
Qed.

Lemma floorTexture_In (d : Data) (t : option Z) (texture : Image) :
  floorTexture d t = Some texture -> In texture (floorTextures d).
Proof.
  destruct t as [id|]; [| discriminate]. cbn. intros E. eapply idx_inv; eauto.
Qed.

Lemma floorPixel_total (d : Data) (x1 rayAngle y : R) (buf : Buffer) :
  forallb image_okb (floorTextures d) = true ->
  exists buf', floorPixel d x1 rayAngle y buf = Done buf'.
Proof.
  intros Hok. unfold floorPixel.
  destruct (floorPoint d rayAngle y) as [tilex tiley].
  destruct (outsideCell (map d) (Zfloor tilex) (Zfloor tiley)) eqn:Hin.
  - exists buf. unfold floorSample. rewrite Hin. reflexivity.
  - destruct (tile_cell_in_range _ _ _ Hin) as [t Ht].
    destruct (floorTexture d t) as [texture|] eqn:Etex.
    + rewrite forallb_forall in Hok.
      pose proof (image_okb_ok _ (Hok _ (floorTexture_In _ _ _ Etex))) as Himg.
      destruct (floorSample_colour d x1 y tilex tiley buf t texture Hin Ht Etex Himg)
        as [_ [_ [c [_ ->]]]].
      cbn [drawPixel]. eauto.
    + exists buf. unfold floorSample.
      rewrite Hin, Ht. cbn [bind]. rewrite Etex. reflexivity.
Qed.

Lemma drawFloor_total (d : Data) (x1 : R) (wallHeight : Z) (rayAngle : R) (buf : Buffer) :
  forallb image_okb (floorTextures d) = true ->
  exists buf', drawFloor d x1 wallHeight rayAngle buf = Done buf'.
Proof.
  intros Hok. unfold drawFloor.
  generalize (projection_halfHeight d + IZR wallHeight + 1) at 2 as y.
  generalize (Js.for_count (projection_halfHeight d + IZR wallHeight + 1)
                (projection_height d)) as n.
  intros n. revert buf.
  induction n as [|n IH]; intros buf y; cbn [drawFloor_from].
  - eauto.
  - destruct (floorPixel_total d x1 rayAngle y buf Hok) as [buf1 ->].
    cbn [bind]. apply IH.
Qed.

(** ** Divisors *)

(** Line 228 on a positive distance: the wall height is not negative. *)
Lemma wallHeight_nonneg (d : Data) (distance : R) :
  0 < projection_height d -> 0 < distance ->
  (0 <= Zfloor (projection_halfHeight d / distance))%Z.
Proof.
  intros Hh Hd. apply Zfloor_lub. simpl. unfold projection_halfHeight.
  apply Rmult_le_pos; [lra | left; now apply Rinv_0_lt_compat].
Qed.

(** On a well-formed configuration none of the quotients of a column
    has a zero divisor: the precision (lines 205-206), the scale and the
    projection width (lines 127-131), the cosine of line 300 and, for a
    wall height that is not negative, [2 * y - height] of line 299 on
    every row [y] the floor loop visits. *)
Lemma frame_divisors (d : Data) (k : nat) :
  well_formed d ->
  INR k < projection_width d ->
  precision d <> 0
  /\ screen_scale (screen d) <> 0
  /\ projection_width d <> 0
  /\ cos (degreeToRadians (player_angle (player d))
          - degreeToRadians (rayAngleAt d k)) <> 0
  /\ forall (wallHeight : Z) (j : nat),
       (0 <= wallHeight)%Z ->
       2 * (projection_halfHeight d + IZR wallHeight + 1 + INR j)
       - projection_height d <> 0.
Proof.
  intros Hwf Hk.
  pose proof (wf_precision d Hwf) as Hp.
  pose proof (wf_height d Hwf) as Hh.
  pose proof (wf_fov d Hwf) as Hfov.
  pose proof (pos_INR k) as Hk0.
  pose proof (wf_scale d Hwf) as Hs.
  split; [lra |]. split; [lra |]. split; [lra |]. split.
  - rewrite degreeToRadians_sub.
    pose proof (rayAngleAt_offset d k (proj1 Hfov) Hk) as Hoff.
    assert (0 < cos (degreeToRadians (player_angle (player d) - rayAngleAt d k)));
      [apply cos_degrees_pos | ]; lra.
  - intros wallHeight j Hw. unfold projection_halfHeight.
    apply IZR_le in Hw. pose proof (pos_INR j). simpl in Hw. lra.
Qed.

(** ** A whole frame *)

Lemma castRay_mono (fuel fuel' : nat) (d : Data) (rayCount : nat) (rayAngle : R)
  (h : RayHit) :
  (fuel <= fuel')%nat ->
  castRay fuel d rayCount rayAngle = Done h ->
  castRay fuel' d rayCount rayAngle = Done h.
Proof.
  intros Hle. unfold castRay, findWall.
  destruct (wallFinder fuel _ _ _ _) as [found| |] eqn:E; cbn [bind]; try discriminate.
  rewrite (wallFinder_mono _ _ _ _ _ _ _ Hle E). auto.
Qed.

Lemma texture_okb_width (t : Texture) :
  texture_okb t = true -> (0 < texture_width t)%Z.
Proof.
  destruct t as [w h bitmap colors|img]; cbn; intros Hok.
  - rewrite !andb_true_iff in Hok. destruct Hok as [[[Hw _] _] _].
    now apply Z.ltb_lt in Hw.
  - apply image_okb_ok in Hok. apply Hok.
Qed.

(** The three draw calls of a column computed by [castRay] complete. *)
Lemma drawColumn_total (fuel : nat) (d : Data) (rayCount : nat) (rayAngle : R)
  (h : RayHit) (buf : Buffer) :
  well_formed d ->
  castRay fuel d rayCount rayAngle = Done h ->
  in_bounds (map d) (ray_x (hit_ray h)) (ray_y (hit_ray h)) ->
  exists buf', drawColumn d h buf = Done buf'.
Proof.
  intros Hwf Hrun [Hx Hy].
  destruct (castRay_inv _ _ _ _ _ Hrun) as [_ [_ [_ [_ [_ [_ [Htex Htpx]]]]]]].
  assert (Hok : texture_okb (hit_texture h) = true).
  { pose proof (wf_textures d Hwf) as Hall. rewrite forallb_forall in Hall.
    apply Hall. eapply wallTexture_In; eauto. }
  assert (Hcol : (0 <= hit_texturePositionX h < texture_width (hit_texture h))%Z).
  { rewrite Htpx. apply texturePositionX_spec; [now apply texture_okb_width | lra]. }
  destruct (wf_background d Hwf) as [bg [Ebg Hbg]].
  unfold drawColumn. rewrite Ebg.
  destruct (drawBackground_total d (INR (hit_rayCount h))
              (projection_halfHeight d - IZR (hit_wallHeight h)) bg buf Hbg)
    as [buf1 ->].
  { pose proof (wf_angle d Hwf). pose proof (pos_INR (hit_rayCount h)). lra. }
  cbn [bind].
  destruct (drawTexture_total d (INR (hit_rayCount h)) (hit_wallHeight h)
              (hit_texturePositionX h) (hit_texture h) buf1 Hok Hcol) as [buf2 ->].
  cbn [bind].
  apply drawFloor_total. apply (wf_floorTextures d Hwf).
Qed.

(** The loop over [n] columns from column [k0] on: some fuel suffices for
    all of them, and the run appends one hit per column, in order. *)
Lemma rayCasting_from_total (d : Data) :
  well_formed d ->
  forall n k0,
    INR (k0 + n) <= projection_width d ->
    exists fuel hits,
      length hits = n
      /\ (forall j h, nth_error hits j = Some h ->
            hit_rayCount h = (k0 + j)%nat
            /\ hit_rayAngle h = rayAngleAt d (k0 + j)
            /\ 0 < hit_distance h
            /\ (0 <= hit_wallHeight h)%Z)
      /\ (forall fuel' hs buf, (fuel <= fuel')%nat ->
            exists buf',
              rayCasting_from n fuel' d k0 (rayAngleAt d k0) (mkFrame hs buf)
              = Done (mkFrame (hs ++ hits) buf')).
Proof.
  intros Hwf. induction n as [|n IH]; intros k0 Hk.
  - exists 0%nat, []. split; [reflexivity |]. split.
    + intros [|j] h; discriminate.
    + intros fuel' hs buf _. exists buf. cbn. rewrite app_nil_r. reflexivity.
  - destruct (castRay_total d k0 (rayAngleAt d k0) (wf_enclosed d Hwf)
                (wf_inside d Hwf) (wf_precision d Hwf) (wf_textured d Hwf))
      as [fuel1 [h [Hrun [Hin Hraw]]]].
    destruct (IH (S k0)) as [fuel2 [hits [Hlen [Hhits Hloop]]]].
    { replace (S k0 + n)%nat with (k0 + S n)%nat by lia. exact Hk. }
    exists (Nat.max fuel1 fuel2), (h :: hits).
    split; [cbn; lia |]. split.
    + intros [|j] h' Hnth.
      * cbn in Hnth. injection Hnth as <-. rewrite Nat.add_0_r.
        pose proof (Hrun fuel1 (Nat.le_refl _)) as Hh.
        destruct (castRay_inv _ _ _ _ _ Hh) as [_ [Hc [Ha [Er [Ed [Ew _]]]]]].
        split; [exact Hc |]. split; [exact Ha |].
        assert (Hpos : 0 < hit_distance h).
        { rewrite Ed. unfold fishEyeFix. apply Rmult_lt_0_compat.
          - rewrite <- Er. exact Hraw.
          - apply cos_degrees_pos.
            pose proof (wf_fov d Hwf) as Hfov.
            assert (Hk0 : INR k0 < projection_width d).
            { rewrite plus_INR, S_INR in Hk. pose proof (pos_INR n). lra. }
            pose proof (rayAngleAt_offset d k0 (proj1 Hfov) Hk0). lra. }
        split; [exact Hpos |].
        rewrite Ew. apply wallHeight_nonneg; [apply (wf_height d Hwf) | exact Hpos].
      * cbn in Hnth. replace (k0 + S j)%nat with (S k0 + j)%nat by lia.
        now apply Hhits.
    + intros fuel' hs buf Hle. cbn [rayCasting_from].
      rewrite (Hrun fuel' ltac:(lia)). cbn [bind frame_buffer frame_hits].
      destruct (drawColumn_total fuel' d k0 (rayAngleAt d k0) h buf Hwf
                  (Hrun fuel' ltac:(lia)) Hin) as [buf1 ->].
      cbn [bind].
      destruct (Hloop fuel' (hs ++ [h]) buf1 ltac:(lia)) as [buf' Hrest].
      exists buf'. cbn [rayAngleAt] in Hrest. rewrite Hrest.
      rewrite <- app_assoc. reflexivity.
Qed.

Lemma for_count_whole (n : nat) : Js.for_count 0 (INR n) = n.
Proof.
  unfold Js.for_count. rewrite (Zceil_eq (Z.of_nat n)).
  - apply Nat2Z.id.
  - rewrite <- INR_IZR_INZ. lra.
Qed.

(** C2. On a well-formed configuration whose projection is [n] columns
    wide, a call of [rayCasting] completes and has computed exactly [n]
    columns, in the order of their column numbers 0, 1, ..., n - 1; the
    ray angle of column [k] is [playerAngle - fov / 2 + k * incrementAngle]:
    the first is [playerAngle - fov / 2], each next one is
    [incrementAngle = fov / projectionWidth] larger, and the last is
    [playerAngle + fov / 2 - incrementAngle]. *)
Theorem rayCasting_columns (d : Data) (buf : Buffer) (n : nat) :
  well_formed d ->
  projection_width d = INR n ->
  exists fuel fr,
    rayCasting fuel d buf = Done fr
    /\ length (frame_hits fr) = n
    /\ (forall k h, nth_error (frame_hits fr) k = Some h ->
          hit_rayCount h = k
          /\ hit_rayAngle h
             = player_angle (player d) - player_fov (player d) / 2
               + INR k * incrementAngle d)
    /\ (forall h, nth_error (frame_hits fr) 0 = Some h ->
          hit_rayAngle h = player_angle (player d) - player_fov (player d) / 2)
    /\ (forall k h h',
          nth_error (frame_hits fr) k = Some h ->
          nth_error (frame_hits fr) (S k) = Some h' ->
          hit_rayAngle h' = hit_rayAngle h + incrementAngle d)
    /\ (forall h, nth_error (frame_hits fr) (n - 1) = Some h ->
          hit_rayAngle h
          = player_angle (player d) + player_fov (player d) / 2 - incrementAngle d)
    /\ incrementAngle d = player_fov (player d) / projection_width d.
Proof.
  intros Hwf Hn.
  destruct (rayCasting_from_total d Hwf n 0) as [fuel [hits [Hlen [Hhits Hloop]]]].
  { rewrite Hn. cbn. lra. }
  destruct (Hloop fuel [] buf (Nat.le_refl _)) as [buf' Hrun].
  exists fuel, (mkFrame hits buf').
  assert (Hangle : forall k h, nth_error hits k = Some h ->
            hit_rayCount h = k
            /\ hit_rayAngle h
               = player_angle (player d) - player_fov (player d) / 2
                 + INR k * incrementAngle d).
  { intros k h Hk. destruct (Hhits k h Hk) as [Hc [Ha _]].
    cbn in Hc, Ha. rewrite Ha, rayAngleAt_eq. auto. }
  split.
  { unfold rayCasting. rewrite Hn, for_count_whole. exact Hrun. }
  cbn [frame_hits]. split; [exact Hlen |]. split; [exact Hangle |].
  split; [| split; [| split]].
  - intros h H0. destruct (Hangle 0%nat h H0) as [_ ->]. cbn. ring.
  - intros k h h' Hk Hk'.
    destruct (Hangle k h Hk) as [_ ->]. destruct (Hangle (S k) h' Hk') as [_ ->].
    rewrite S_INR. ring.
  - intros h Hl.
    assert (Hpos : (0 < n)%nat).
    { assert (n - 1 < length hits)%nat by (apply nth_error_Some; congruence). lia. }
    destruct (Hangle _ h Hl) as [_ ->].
    unfold incrementAngle. rewrite Hn.
    rewrite minus_INR by lia. cbn [INR].
    apply lt_0_INR in Hpos. field. lra.
  - reflexivity.
Qed.

Lemma plain_data_well_formed (c : Color) : well_formed (plain_data c).
Proof.
  constructor.
  - reflexivity.
  - unfold strictly_inside, map_width, map_height. cbn. lra.
  - cbn. lra.
  - cbn. lra.
  - cbn. lra.
  - cbn. lra.
  - unfold projection_height. cbn. lra.
  - reflexivity.
  - reflexivity.
  - reflexivity.
  - eexists. split; reflexivity.
Defined.

Lemma rayCasting_columns_witness :
  let d := plain_data (mkColor 0 0 0 255) in
  exists fuel fr,
    rayCasting fuel d [] = Done fr /\ length (frame_hits fr) = 160%nat.
Proof.
  intros d.
  destruct (rayCasting_columns d [] 160) as [fuel [fr [Hrun [Hlen _]]]].
  - apply plain_data_well_formed.
  - unfold projection_width. rewrite INR_IZR_INZ. cbn. lra.
  - exists fuel, fr. split; assumption.
Defined.

(** ** Concrete instances *)

(** The floor sample of the bottom row, looking along the x axis from the
    start position. *)
Lemma floorPoint_bottom_row (c : Color) :
  floorPoint (with_player (plain_data c) (set_angle default_player 0)) 0 119
  = (120 / 118 + 2, 2).
Proof.
  unfold floorPoint, floorCorrected, floorDistance, projection_height.
  cbn [player with_player plain_data default_data set_angle default_player
       player_angle player_x player_y screen screen_height screen_scale].
  rewrite degreeToRadians_0, Rminus_diag, cos_0, sin_0.
  f_equal; field.
Qed.

Lemma floor_texture_coords_in_range_witness :
  let c := mkColor 0 0 0 255 in
  let d := with_player (plain_data c) (set_angle default_player 0) in
  let texture := mkImage 16 16 (repeat c (16 * 16)) in
  (0 <= floorTextureX texture (fst (floorPoint d 0 119)) < image_width texture)%Z.
Proof.
  intros c d texture.
  assert (Fx : Zfloor (120 / 118 + 2) = 3%Z) by floor_is 3%Z.
  assert (Fy : Zfloor 2 = 2%Z) by floor_is 2%Z.
  refine (proj1 (floor_texture_coords_in_range d 0 119
                   (fst (floorPoint d 0 119)) (snd (floorPoint d 0 119))
                   [] (Some 0%Z) texture _ _ _ _)).
  - unfold d. rewrite floorPoint_bottom_row. cbn [fst snd]. rewrite Fx, Fy. reflexivity.
  - unfold d. rewrite floorPoint_bottom_row. cbn [fst snd]. rewrite Fx, Fy. reflexivity.
  - reflexivity.
  - apply image_okb_ok. reflexivity.
Defined.

(** * Further properties of the source *)

(** ** Movement keeps the player on walkable tiles *)

Lemma eq0_true (v : option Z) : Js.eq0 v = true -> v = Some 0%Z.
Proof.
  destruct v as [z|]; cbn; [| discriminate].
  intros H. apply Z.eqb_eq in H. now subst.
Qed.

(** A point between two others less than a tile apart lies in the cell
    of one of them. *)
Lemma floor_between (a b c : R) :
  (a <= b <= c \/ c <= b <= a) -> Rabs (c - a) < 1 ->
  Zfloor b = Zfloor a \/ Zfloor b = Zfloor c.
Proof.
  intros Hb Hd.
  pose proof (Zfloor_bound a) as [Al Ah].
  pose proof (Zfloor_bound c) as [Cl Ch].
  apply Rabs_def2 in Hd. destruct Hd as [Hd1 Hd2].
  destruct Hb as [[H1 H2]|[H1 H2]].
  - pose proof (Zfloor_le _ _ H1). pose proof (Zfloor_le _ _ H2).
    assert (Zfloor c < Zfloor a + 2)%Z; [| lia].
    apply lt_IZR. rewrite plus_IZR. simpl. lra.
  - pose proof (Zfloor_le _ _ H1). pose proof (Zfloor_le _ _ H2).
    assert (Zfloor a < Zfloor c + 2)%Z; [| lia].
    apply lt_IZR. rewrite plus_IZR. simpl. lra.
Qed.

(** The cell of the candidate coordinate is the cell the player is in or
    the look-ahead cell. *)
Lemma stride_cells (v u mv r : R) :
  -1 <= u <= 1 -> 0 <= mv -> 0 <= r -> mv * (1 + r) < 1 ->
  (Zfloor (v + u * mv) = Zfloor v
   \/ Zfloor (v + u * mv) = Zfloor (v + u * mv + u * mv * r))
  /\ (Zfloor (v - u * mv) = Zfloor v
      \/ Zfloor (v - u * mv) = Zfloor (v - u * mv - u * mv * r)).
Proof.
  intros Hu Hmv Hr Hs.
  assert (Habs : Rabs (u * mv * (1 + r)) < 1).
  { assert (Hk : 0 <= mv * (1 + r)) by nra.
    replace (u * mv * (1 + r)) with (u * (mv * (1 + r))) by ring.
    set (k := mv * (1 + r)) in *. apply Rabs_def1; nra. }
  assert (Hsign : 0 <= u * mv \/ u * mv <= 0) by lra.
  split.
  - apply floor_between.
    + destruct Hsign; [left | right]; nra.
    + replace (v + u * mv + u * mv * r - v) with (u * mv * (1 + r)) by ring.
      exact Habs.
  - apply floor_between.
    + destruct Hsign; [right | left]; nra.
    + replace (v - u * mv - u * mv * r - v) with (- (u * mv * (1 + r))) by ring.
      rewrite Rabs_Ropp. exact Habs.
Qed.

(** If each candidate coordinate falls in the player's cell or in the
    look-ahead cell, the collision detection leaves the player on a
    walkable tile. *)
Lemma collide_free (m : Map) (p p' : Player) (newX newY : R) (checkX checkY : Z) :
  (Zfloor newX = Zfloor (player_x p) \/ Zfloor newX = checkX) ->
  (Zfloor newY = Zfloor (player_y p) \/ Zfloor newY = checkY) ->
  on_free_tile m (player_x p) (player_y p) ->
  collide m p newX newY checkX checkY = Done p' ->
  on_free_tile m (player_x p') (player_y p').
Proof.
  unfold on_free_tile, collide. intros HX HY Hfree.
  destruct (tile m checkY (Zfloor (player_x p))) as [t1| |] eqn:E1;
    cbn [bind]; try discriminate.
  set (p1 := if Js.eq0 t1 then set_y p newY else p).
  assert (Hx1 : player_x p1 = player_x p) by (subst p1; destruct (Js.eq0 t1); reflexivity).
  assert (Hcol : tile m (Zfloor (player_y p1)) (Zfloor (player_x p)) = Done (Some 0%Z)).
  { subst p1. destruct (Js.eq0 t1) eqn:Z1; [| exact Hfree].
    cbn [player_y set_y]. apply eq0_true in Z1. subst t1.
    destruct HY as [-> | ->]; assumption. }
  destruct (tile m (Zfloor (player_y p1)) checkX) as [t2| |] eqn:E2;
    cbn [bind]; try discriminate.
  intros E. injection E as <-.
  destruct (Js.eq0 t2) eqn:Z2.
  - cbn [player_x player_y set_x]. apply eq0_true in Z2. subst t2.
    destruct HX as [-> | ->]; assumption.
  - rewrite Hx1. exact Hcol.
Qed.

Lemma moveUp_free (m : Map) (p p' : Player) :
  short_stride p ->
  on_free_tile m (player_x p) (player_y p) ->
  moveUp m p = Done p' ->
  on_free_tile m (player_x p') (player_y p').
Proof.
  intros [Hmv [Hr Hs]] Hfree. unfold moveUp. apply collide_free; [| | exact Hfree].
  - apply (stride_cells _ _ _ _ (COS_bound _) Hmv Hr Hs).
  - apply (stride_cells _ _ _ _ (SIN_bound _) Hmv Hr Hs).
Qed.

Lemma moveDown_free (m : Map) (p p' : Player) :
  short_stride p ->
  on_free_tile m (player_x p) (player_y p) ->
  moveDown m p = Done p' ->
  on_free_tile m (player_x p') (player_y p').
Proof.
  intros [Hmv [Hr Hs]] Hfree. unfold moveDown. apply collide_free; [| | exact Hfree].
  - apply (stride_cells _ _ _ _ (COS_bound _) Hmv Hr Hs).
  - apply (stride_cells _ _ _ _ (SIN_bound _) Hmv Hr Hs).
Qed.

(** The collision detection changes the position only. *)
Lemma collide_keeps (m : Map) (p p' : Player) (newX newY : R) (checkX checkY : Z) :
  collide m p newX newY checkX checkY = Done p' ->
  player_fov p' = player_fov p /\ player_angle p' = player_angle p
  /\ player_speed p' = player_speed p /\ player_radius p' = player_radius p.
Proof.
  unfold collide. destruct (tile m checkY _) as [t1| |]; cbn [bind]; try discriminate.
  destruct (tile m _ checkX) as [t2| |]; cbn [bind]; try discriminate.
  intros E. injection E as <-.
  destruct (Js.eq0 t1), (Js.eq0 t2); cbn; auto.
Qed.

Lemma moveUp_keeps (m : Map) (p p' : Player) :
  moveUp m p = Done p' ->
  player_fov p' = player_fov p /\ player_angle p' = player_angle p
  /\ player_speed p' = player_speed p /\ player_radius p' = player_radius p.
Proof. unfold moveUp. apply collide_keeps. Qed.

Lemma moveDown_keeps (m : Map) (p p' : Player) :
  moveDown m p = Done p' ->
  player_fov p' = player_fov p /\ player_angle p' = player_angle p
  /\ player_speed p' = player_speed p /\ player_radius p' = player_radius p.
Proof. unfold moveDown. apply collide_keeps. Qed.

Lemma short_stride_same (p p' : Player) :
  player_speed p' = player_speed p -> player_radius p' = player_radius p ->
  short_stride p -> short_stride p'.
Proof. unfold short_stride. intros -> ->. auto. Qed.

(** What a completed tick does to the player apart from the heading: the
    position stays on a walkable tile, and the field of view, the speeds
    and the radius are those of before. *)
Lemma movePlayer_step (d : Data) (p' : Player) :
  short_stride (player d) ->
  on_free_tile (map d) (player_x (player d)) (player_y (player d)) ->
  movePlayer d = Done p' ->
  on_free_tile (map d) (player_x p') (player_y p')
  /\ player_fov p' = player_fov (player d)
  /\ player_speed p' = player_speed (player d)
  /\ player_radius p' = player_radius (player d).
Proof.
  intros Hs Hfree. unfold movePlayer.
  destruct (if key_up (key d) then moveUp (map d) (player d) else Done (player d))
    as [p1| |] eqn:E1; cbn [bind]; try discriminate.
  assert (K1 : on_free_tile (map d) (player_x p1) (player_y p1)
               /\ player_fov p1 = player_fov (player d)
               /\ player_speed p1 = player_speed (player d)
               /\ player_radius p1 = player_radius (player d)).
  { destruct (key_up (key d)).
    - destruct (moveUp_keeps _ _ _ E1) as [F [_ [S R]]].
      split; [eapply moveUp_free; eauto | auto].
    - injection E1 as <-. auto. }
  destruct K1 as [Free1 [F1 [S1 R1]]].
  destruct (if key_down (key d) then moveDown (map d) p1 else Done p1)
    as [p2| |] eqn:E2; cbn [bind]; try discriminate.
  assert (K2 : on_free_tile (map d) (player_x p2) (player_y p2)
               /\ player_fov p2 = player_fov (player d)
               /\ player_speed p2 = player_speed (player d)
               /\ player_radius p2 = player_radius (player d)).
  { destruct (key_down (key d)).
    - destruct (moveDown_keeps _ _ _ E2) as [F [_ [S R]]].
      split; [| rewrite F, S, R; auto].
      apply (moveDown_free (map d) p1 p2); [| exact Free1 | exact E2].
      apply (short_stride_same (player d) p1 S1 R1 Hs).
    - injection E2 as <-. auto. }
  intros E. injection E as <-.
  destruct (key_left (key d)), (key_right (key d)); exact K2.
Qed.

(** X1. Whatever keys are held, a tick of [movePlayer] that completes
    from a walkable tile, with a stride (step plus radius look-ahead)
    shorter than a tile, leaves the player on a walkable tile: the player
    never ends inside a wall. *)
Theorem movePlayer_stays_free (d : Data) (p' : Player) :
  short_stride (player d) ->
  on_free_tile (map d) (player_x (player d)) (player_y (player d)) ->
  movePlayer d = Done p' ->
  on_free_tile (map d) (player_x p') (player_y p').
Proof. intros Hs Hfree Hrun. now apply (movePlayer_step d p' Hs Hfree Hrun). Qed.

Lemma walking_0_free : on_free_tile default_map (player_x (walking 0)) (player_y (walking 0)).
Proof.
  unfold on_free_tile, walking. cbn [player_x player_y INR].
  replace (Zfloor (2 + 0 * diagonal_step)) with 2%Z by (symmetry; floor_is 2%Z).
  reflexivity.
Qed.

Lemma shipped_stride (p : Player) :
  player_speed p = mkSpeed (1 / 10) (45 / 10) -> player_radius p = 3 / 10 ->
  short_stride p.
Proof. unfold short_stride. intros -> ->. cbn. lra. Qed.

Lemma movePlayer_stays_free_witness :
  on_free_tile default_map (player_x (walking 1)) (player_y (walking 1)).
Proof.
  apply (movePlayer_stays_free (forward_data 0) (walking 1)).
  - now apply shipped_stride.
  - exact walking_0_free.
  - apply forward_tick. lia.
Defined.

(** ** On an enclosed map movement never raises *)

Lemma free_inside (m : Map) (x y : R) :
  enclosed m -> on_free_tile m x y -> strictly_inside m x y.
Proof.
  intros Henc Hfree. unfold on_free_tile, tile in Hfree.
  destruct (Js.idx m (Zfloor y)) as [cells|] eqn:Er; [| discriminate].
  injection Hfree as Hc.
  destruct (idx_inv _ _ _ Er) as [Hy _].
  destruct (idx_inv _ _ _ Hc) as [Hx _].
  assert (Erow : nth_error m (Z.to_nat (Zfloor y)) = Some cells).
  { unfold Js.idx in Er. destruct (Z.ltb_spec (Zfloor y) 0); [discriminate | exact Er]. }
  rewrite (enclosed_rectangular m Henc _ _ Erow) in Hx.
  assert (Hin : in_bounds m x y).
  { pose proof (Zfloor_bound x) as [Xl Xh]. pose proof (Zfloor_bound y) as [Yl Yh].
    unfold in_bounds, map_width, map_height. rewrite !INR_IZR_INZ.
    destruct Hx as [Hx0 Hx1], Hy as [Hy0 Hy1].
    apply IZR_le in Hx0, Hy0.
    assert (Hx2 : (Zfloor x + 1 <= Z.of_nat (length (nth 0%nat m [])))%Z) by lia.
    assert (Hy2 : (Zfloor y + 1 <= Z.of_nat (length m))%Z) by lia.
    apply IZR_le in Hx2, Hy2. rewrite plus_IZR in Hx2, Hy2. simpl in Hx0, Hy0. lra. }
  apply off_border_inside; [exact Hin |].
  apply enclosed_border; try assumption; try lia.
  pose proof (tile_cell m Henc x y Hin) as Ht.
  unfold tile in Ht. rewrite Er, Hc in Ht. congruence.
Qed.

Lemma tile_row_total (m : Map) (row col : Z) :
  (0 <= row < Z.of_nat (length m))%Z -> exists t, tile m row col = Done t.
Proof.
  intros Hr. unfold tile. destruct (idx_Some m row Hr) as [cells ->]. eauto.
Qed.

(** From a coordinate off the border, the candidate and the look-ahead
    coordinate stay inside the map's extent. *)
Lemma stride_in_extent (v u mv r : R) (n : nat) :
  1 <= v < INR n - 1 ->
  -1 <= u <= 1 -> 0 <= mv -> 0 <= r -> mv * (1 + r) < 1 ->
  forall k, (k = u * mv \/ k = u * mv + u * mv * r
             \/ k = - (u * mv) \/ k = - (u * mv) - u * mv * r) ->
  (0 <= Zfloor (v + k) < Z.of_nat n)%Z.
Proof.
  intros Hv Hu Hmv Hr Hs k Hk. apply Zfloor_in_range.
  assert (Hk0 : 0 <= mv * (1 + r)) by nra.
  assert (Hm : 0 <= mv * r) by nra.
  assert (H1 : -1 < u * (mv * (1 + r)) < 1) by (set (q := mv * (1 + r)) in *; nra).
  assert (H2 : -1 < u * mv < 1) by nra.
  destruct Hk as [-> | [-> | [-> | ->]]]; nra.
Qed.

Lemma collide_total (m : Map) (p : Player) (newX newY : R) (checkX checkY : Z) :
  (0 <= checkY < Z.of_nat (length m))%Z ->
  (0 <= Zfloor newY < Z.of_nat (length m))%Z ->
  (0 <= Zfloor (player_y p) < Z.of_nat (length m))%Z ->
  exists p', collide m p newX newY checkX checkY = Done p'.
Proof.
  intros Hc Hn Hy. unfold collide.
  destruct (tile_row_total m checkY (Zfloor (player_x p)) Hc) as [t1 ->]. cbn [bind].
  assert (Hrow : (0 <= Zfloor (player_y (if Js.eq0 t1 then set_y p newY else p))
                  < Z.of_nat (length m))%Z).
  { destruct (Js.eq0 t1); assumption. }
  destruct (tile_row_total m _ checkX Hrow) as [t2 ->]. cbn [bind]. eauto.
Qed.

Lemma moveUp_total (m : Map) (p : Player) :
  short_stride p -> strictly_inside m (player_x p) (player_y p) ->
  exists p', moveUp m p = Done p'.
Proof.
  intros [Hmv [Hr Hs]] [_ Hy]. unfold moveUp, map_height in *.
  pose proof (stride_in_extent _ _ _ _ _ Hy (SIN_bound (degreeToRadians (player_angle p)))
                Hmv Hr Hs) as Hext.
  apply collide_total.
  - rewrite Rplus_assoc. apply Hext. auto.
  - apply Hext. auto.
  - apply Zfloor_in_range. lra.
Qed.

Lemma moveDown_total (m : Map) (p : Player) :
  short_stride p -> strictly_inside m (player_x p) (player_y p) ->
  exists p', moveDown m p = Done p'.
Proof.
  intros [Hmv [Hr Hs]] [_ Hy]. unfold moveDown, map_height in *.
  pose proof (stride_in_extent _ _ _ _ _ Hy (SIN_bound (degreeToRadians (player_angle p)))
                Hmv Hr Hs) as Hext.
  apply collide_total.
  - unfold Rminus. rewrite Rplus_assoc. apply Hext. auto.
  - unfold Rminus. apply Hext. auto.
  - apply Zfloor_in_range. lra.
Qed.

Lemma movePlayer_total (d : Data) :
  enclosed (map d) -> short_stride (player d) ->
  on_free_tile (map d) (player_x (player d)) (player_y (player d)) ->
  exists p', movePlayer d = Done p'.
Proof.
  intros Henc Hs Hfree. unfold movePlayer.
  assert (Hup : exists p1,
            (if key_up (key d) then moveUp (map d) (player d) else Done (player d))
            = Done p1).
  { destruct (key_up (key d)); [| eauto].
    apply moveUp_total; [exact Hs | now apply free_inside]. }
  destruct Hup as [p1 E1]. rewrite E1. cbn [bind].
  assert (K1 : on_free_tile (map d) (player_x p1) (player_y p1) /\ short_stride p1).
  { destruct (key_up (key d)).
    - destruct (moveUp_keeps _ _ _ E1) as [_ [_ [S R]]].
      split; [eapply moveUp_free; eauto | eapply short_stride_same; eauto].
    - injection E1 as <-. auto. }
  destruct K1 as [Free1 Hs1].
  assert (Hdown : exists p2,
            (if key_down (key d) then moveDown (map d) p1 else Done p1) = Done p2).
  { destruct (key_down (key d)); [| eauto].
    apply moveDown_total; [exact Hs1 | now apply free_inside]. }
  destruct Hdown as [p2 ->]. cbn [bind]. eauto.
Qed.

(** X2. On an enclosed map, with the player on a walkable tile and a
    stride shorter than a tile, any number of ticks of [movePlayer]
    completes whatever keys are held (no map lookup raises), and the
    player is then still on a walkable tile off the border: the start
    condition of the ray caster is kept from frame to frame. *)
Theorem ticks_stay_inside (n : nat) : forall d : Data,
  enclosed (map d) ->
  short_stride (player d) ->
  on_free_tile (map d) (player_x (player d)) (player_y (player d)) ->
  exists d',
    ticks n d = Done d'
    /\ map d' = map d
    /\ on_free_tile (map d) (player_x (player d')) (player_y (player d'))
    /\ strictly_inside (map d) (player_x (player d')) (player_y (player d')).
Proof.
  induction n as [|n IH]; intros d Henc Hs Hfree.
  - exists d. split; [reflexivity |]. split; [reflexivity |].
    split; [exact Hfree | now apply free_inside].
  - destruct (movePlayer_total d Henc Hs Hfree) as [p' Hrun].
    destruct (movePlayer_step d p' Hs Hfree Hrun) as [Hfree' [_ [S R]]].
    cbn [ticks]. rewrite Hrun. cbn [bind].
    destruct (IH (with_player d p')) as [d' [Ht [Hm [Hf Hi]]]]; cbn [map player with_player].
    + exact Henc.
    + eapply short_stride_same; eauto.
    + exact Hfree'.
    + exists d'. cbn [map with_player] in Hm, Hf, Hi. auto.
Qed.

Lemma ticks_stay_inside_witness :
  let d := with_key (default_data [] [] []) (mkKeys true false false true) in
  exists d',
    ticks 1000 d = Done d'
    /\ strictly_inside (map d) (player_x (player d')) (player_y (player d')).
Proof.
  intros d.
  destruct (ticks_stay_inside 1000 d) as [d' [Hrun [_ [_ Hin]]]].
  - reflexivity.
  - now apply shipped_stride.
  - unfold on_free_tile. cbn [d map with_key default_data player default_player
      player_x player_y].
    replace (Zfloor 2) with 2%Z by (symmetry; floor_is 2%Z). reflexivity.
  - exists d'. split; assumption.
Defined.

(** ** What the wall finder passes over *)

(** X3. The wall finder stops at the first sample that is outside the
    bounds or on a non-zero tile: every sample before the returned one
    was inside the bounds on a tile with id 0. *)
Theorem wallFinder_first_hit (m : Map) (rc rs : R) :
  forall fuel ray ray' wall,
    wallFinder fuel m rc rs ray = Done (ray', wall) ->
    exists n : nat,
      ray_x ray' = ray_x ray + INR (S n) * rc
      /\ ray_y ray' = ray_y ray + INR (S n) * rs
      /\ forall j, (j < n)%nat ->
           in_bounds m (ray_x ray + INR (S j) * rc) (ray_y ray + INR (S j) * rs)
           /\ tile m (Zfloor (ray_y ray + INR (S j) * rs))
                (Zfloor (ray_x ray + INR (S j) * rc)) = Done (Some 0%Z).
Proof.
  induction fuel as [|fuel IH]; intros ray ray' wall; [discriminate |].
  rewrite wallFinder_S. unfold advance. cbn [fst snd].
  set (next := mkRay (ray_x ray + rc) (ray_y ray + rs)).
  destruct (outside m (ray_x next) (ray_y next)) eqn:Eo.
  - cbn. intros E. injection E as <- <-.
    exists 0%nat. subst next. cbn [ray_x ray_y INR].
    split; [ring |]. split; [ring |]. intros j Hj. lia.
  - destruct (tile m (Zfloor (ray_y next)) (Zfloor (ray_x next))) as [w| |] eqn:Ew;
      cbn [bind]; try discriminate.
    destruct (Js.eq0 w) eqn:E0.
    + intros Hrec. destruct (IH _ _ _ Hrec) as [n [Hx [Hy Hbefore]]].
      exists (S n). subst next. cbn [ray_x ray_y] in *.
      split; [rewrite Hx, (S_INR (S n)); ring |].
      split; [rewrite Hy, (S_INR (S n)); ring |].
      intros [|j] Hj.
      * cbn [INR]. rewrite !Rmult_1_l. apply eq0_true in E0. subst w.
        split; [now apply outside_false | exact Ew].
      * destruct (Hbefore j ltac:(lia)) as [Hin Ht].
        replace (ray_x ray + INR (S (S j)) * rc)
          with (ray_x ray + rc + INR (S j) * rc) by (rewrite (S_INR (S j)); ring).
        replace (ray_y ray + INR (S (S j)) * rs)
          with (ray_y ray + rs + INR (S j) * rs) by (rewrite (S_INR (S j)); ring).
        split; assumption.
    + intros E. injection E as <- <-.
      exists 0%nat. subst next. cbn [ray_x ray_y INR].
      split; [ring |]. split; [ring |]. intros j Hj. lia.
Qed.

(** One pass of the loop body at a sample inside the bounds. *)
Lemma advance_free (m : Map) (rc rs : R) (ray : Ray) (row col : Z) (t : option Z) :
  in_bounds m (ray_x ray + rc) (ray_y ray + rs) ->
  Zfloor (ray_y ray + rs) = row -> Zfloor (ray_x ray + rc) = col ->
  tile m row col = Done t ->
  advance m rc rs ray = (mkRay (ray_x ray + rc) (ray_y ray + rs), Done t).
Proof.
  intros Hin <- <- Ht. unfold advance. cbn [ray_x ray_y].
  apply outside_false in Hin. rewrite Hin, Ht. reflexivity.
Qed.

(** On the shipped map a ray from (2.5, 1.5) going west in steps of one
    half passes x = 2, 1.5 and 1 on walkable tiles and stops at x = 0.5
    in the wall of column 0. *)
Lemma west_ray_run :
  wallFinder 4 default_map (- (1 / 2)) 0 (mkRay (5 / 2) (3 / 2))
  = Done (mkRay (5 / 2 + - (1 / 2) + - (1 / 2) + - (1 / 2) + - (1 / 2))
                (3 / 2 + 0 + 0 + 0 + 0), Some 2%Z).
Proof.
  assert (Hw : map_width default_map = 10) by (unfold map_width; cbn; lra).
  assert (Hh : map_height default_map = 10) by (unfold map_height; cbn; lra).
  rewrite wallFinder_S.
  rewrite (advance_free default_map _ _ _ 1 2 (Some 0%Z));
    [| unfold in_bounds; cbn [ray_x ray_y]; lra
     | apply (Zfloor_eq 1); cbn [ray_x ray_y]; simpl; lra
     | apply (Zfloor_eq 2); cbn [ray_x ray_y]; simpl; lra
     | reflexivity].
  cbn [fst snd bind Js.eq0 Z.eqb].
  rewrite wallFinder_S.
  rewrite (advance_free default_map _ _ _ 1 1 (Some 0%Z));
    [| unfold in_bounds; cbn [ray_x ray_y]; lra
     | apply (Zfloor_eq 1); cbn [ray_x ray_y]; simpl; lra
     | apply (Zfloor_eq 1); cbn [ray_x ray_y]; simpl; lra
     | reflexivity].
  cbn [fst snd bind Js.eq0 Z.eqb].
  rewrite wallFinder_S.
  rewrite (advance_free default_map _ _ _ 1 1 (Some 0%Z));
    [| unfold in_bounds; cbn [ray_x ray_y]; lra
     | apply (Zfloor_eq 1); cbn [ray_x ray_y]; simpl; lra
     | apply (Zfloor_eq 1); cbn [ray_x ray_y]; simpl; lra
     | reflexivity].
  cbn [fst snd bind Js.eq0 Z.eqb].
  rewrite wallFinder_S.
  rewrite (advance_free default_map _ _ _ 1 0 (Some 2%Z));
    [| unfold in_bounds; cbn [ray_x ray_y]; lra
     | apply (Zfloor_eq 1); cbn [ray_x ray_y]; simpl; lra
     | apply (Zfloor_eq 0); cbn [ray_x ray_y]; simpl; lra
     | reflexivity].
  cbn [fst snd bind Js.eq0 Z.eqb ray_x ray_y]. reflexivity.
Qed.

Lemma wallFinder_first_hit_witness :
  exists n : nat,
    n = 3%nat
    /\ forall j, (j < n)%nat ->
         in_bounds default_map (5 / 2 + INR (S j) * - (1 / 2)) (3 / 2 + INR (S j) * 0)
         /\ tile default_map (Zfloor (3 / 2 + INR (S j) * 0))
              (Zfloor (5 / 2 + INR (S j) * - (1 / 2))) = Done (Some 0%Z).
Proof.
  destruct (wallFinder_first_hit default_map (- (1 / 2)) 0 4 (mkRay (5 / 2) (3 / 2))
              _ _ west_ray_run) as [n [Hx [_ Hbefore]]].
  cbn [ray_x ray_y] in Hx.
  exists n. split; [| exact Hbefore].
  apply INR_eq. rewrite S_INR in Hx. simpl (INR 3). lra.
Defined.

(** ** The pixel buffer *)

Lemma replace_nth_length {A : Type} (n : nat) (a : A) (l : list A) :
  length (replace_nth n a l) = length l.
Proof.
  revert n. induction l as [|hd tl IH]; intros [|n]; cbn; auto.
Qed.

Lemma replace_nth_same {A : Type} (n : nat) (a dflt : A) (l : list A) :
  (n < length l)%nat -> nth n (replace_nth n a l) dflt = a.
Proof.
  revert n. induction l as [|hd tl IH]; intros [|n] Hn; cbn in *; try lia; auto.
  apply IH. lia.
Qed.

Lemma replace_nth_other {A : Type} (n j : nat) (a dflt : A) (l : list A) :
  j <> n -> nth j (replace_nth n a l) dflt = nth j l dflt.
Proof.
  revert n j. induction l as [|hd tl IH]; intros [|n] [|j] Hj; cbn; auto; try lia.
Qed.

Lemma store_length (offset : R) (v : Z) (buf : Buffer) :
  length (store offset v buf) = length buf.
Proof.
  unfold store. destruct (Req_dec_T _ _); [| reflexivity].
  destruct (_ && _); [apply replace_nth_length | reflexivity].
Qed.

(** A store changes no byte other than the one at its offset. *)
Lemma store_other (offset : R) (v : Z) (buf : Buffer) (j : nat) :
  IZR (Z.of_nat j) <> offset ->
  nth j (store offset v buf) 0%Z = nth j buf 0%Z.
Proof.
  intros Hj. unfold store. cbv zeta.
  destruct (Req_dec_T _ _) as [E|]; [| reflexivity].
  destruct (_ && _) eqn:Hr; [| reflexivity].
  apply replace_nth_other. intros Hc. apply Hj. rewrite <- E, Hc.
  apply andb_prop in Hr as [H0 _]. apply Z.leb_le in H0.
  rewrite Z2Nat.id by exact H0. reflexivity.
Qed.

Lemma store_same (i : Z) (v : Z) (buf : Buffer) :
  (0 <= i < Z.of_nat (length buf))%Z ->
  nth (Z.to_nat i) (store (IZR i) v buf) 0%Z = clamp8 v.
Proof.
  intros Hi. unfold store. rewrite ZfloorZ.
  destruct (Req_dec_T _ _) as [_|N]; [| congruence].
  replace ((0 <=? i) && (i <? Z.of_nat (length buf)))%Z with true.
  - apply replace_nth_same. lia.
  - symmetry. apply andb_true_intro. split; [apply Z.leb_le | apply Z.ltb_lt]; lia.
Qed.

(** With a whole projection width the offset of line 171 is the whole
    number [pixelOffset]. *)
Lemma drawPixel_offset (d : Data) (w : Z) (x y : R) (k : Z) :
  projection_width d = IZR w ->
  4 * (IZR (Zfloor x) + IZR (Zfloor y) * projection_width d) + IZR k
  = IZR (pixelOffset w (Zfloor x) (Zfloor y) + k).
Proof.
  intros ->. unfold pixelOffset.
  rewrite plus_IZR, mult_IZR, plus_IZR, mult_IZR. reflexivity.
Qed.

(** What [drawPixel] does to the buffer, for a whole projection width. *)
Lemma drawPixel_frame (d : Data) (w : Z) (x y : R) (c : Color) (buf buf' : Buffer) :
  projection_width d = IZR w ->
  drawPixel d x y (Some c) buf = Done buf' ->
  let o := pixelOffset w (Zfloor x) (Zfloor y) in
  length buf' = length buf
  /\ (forall j, (Z.of_nat j < o \/ o + 3 < Z.of_nat j)%Z ->
        nth j buf' 0%Z = nth j buf 0%Z)
  /\ ((0 <= o)%Z -> (o + 3 < Z.of_nat (length buf))%Z ->
        nth (Z.to_nat o) buf' 0%Z = clamp8 (color_r c)
        /\ nth (Z.to_nat (o + 1)) buf' 0%Z = clamp8 (color_g c)
        /\ nth (Z.to_nat (o + 2)) buf' 0%Z = clamp8 (color_b c)
        /\ nth (Z.to_nat (o + 3)) buf' 0%Z = clamp8 (color_a c)).
Proof.
  intros Hw E. cbn [drawPixel] in E. injection E as <-. cbv zeta.
  set (o := pixelOffset w (Zfloor x) (Zfloor y)).
  pose proof (drawPixel_offset d w x y 0 Hw) as E0.
  rewrite Rplus_0_r, Z.add_0_r in E0. fold o in E0.
  rewrite E0, <- !plus_IZR.
  split; [now rewrite !store_length |]. split.
  - intros j Hj.
    rewrite !store_other; [reflexivity | | | |];
      intros Hc; apply eq_IZR in Hc; lia.
  - intros Hlo Hhi.
    assert (Hne : forall a b : Z, a <> b -> (0 <= a)%Z -> IZR (Z.of_nat (Z.to_nat a)) <> IZR b).
    { intros a b Hab Ha Hc. apply eq_IZR in Hc. lia. }
    repeat split.
    + rewrite !store_other by (apply Hne; lia).
      apply store_same. lia.
    + rewrite !store_other by (apply Hne; lia).
      apply store_same. rewrite store_length. lia.
    + rewrite store_other by (apply Hne; lia).
      apply store_same. rewrite !store_length. lia.
    + apply store_same. rewrite !store_length. lia.
Qed.

(** X5. For a whole projection width, a call of [drawPixel] keeps the
    length of the buffer, changes no byte outside the four at offset
    [4 * (floor x + floor y * width)], and, when these four lie inside the
    buffer, leaves there the red, green, blue and alpha channels of the
    colour, each clamped to a byte. *)
Theorem drawPixel_writes (d : Data) (w : Z) (x y : R) (c : Color) (buf buf' : Buffer) :
  projection_width d = IZR w ->
  drawPixel d x y (Some c) buf = Done buf' ->
  length buf' = length buf
  /\ (forall j, (Z.of_nat j < pixelOffset w (Zfloor x) (Zfloor y)
                 \/ pixelOffset w (Zfloor x) (Zfloor y) + 3 < Z.of_nat j)%Z ->
        nth j buf' 0%Z = nth j buf 0%Z)
  /\ ((0 <= pixelOffset w (Zfloor x) (Zfloor y))%Z ->
      (pixelOffset w (Zfloor x) (Zfloor y) + 3 < Z.of_nat (length buf))%Z ->
        nth (Z.to_nat (pixelOffset w (Zfloor x) (Zfloor y))) buf' 0%Z
        = clamp8 (color_r c)
        /\ nth (Z.to_nat (pixelOffset w (Zfloor x) (Zfloor y) + 1)) buf' 0%Z
           = clamp8 (color_g c)
        /\ nth (Z.to_nat (pixelOffset w (Zfloor x) (Zfloor y) + 2)) buf' 0%Z
           = clamp8 (color_b c)
        /\ nth (Z.to_nat (pixelOffset w (Zfloor x) (Zfloor y) + 3)) buf' 0%Z
           = clamp8 (color_a c)).
Proof. intros Hw Hrun. exact (drawPixel_frame d w x y c buf buf' Hw Hrun). Qed.

Lemma drawPixel_writes_witness :
  let d := default_data [] [] [] in
  let buf := repeat 0%Z 8 in
  exists buf',
    drawPixel d 1 0 (Some (mkColor 300 (-5) 7 255)) buf = Done buf'
    /\ length buf' = 8%nat
    /\ nth 4 buf' 0%Z = 255%Z /\ nth 5 buf' 0%Z = 0%Z.
Proof.
  intros d buf.
  assert (F1 : Zfloor 1 = 1%Z) by floor_is 1%Z.
  assert (F0 : Zfloor 0 = 0%Z) by floor_is 0%Z.
  destruct (drawPixel d 1 0 (Some (mkColor 300 (-5) 7 255)) buf) as [buf'| |] eqn:E;
    try (cbn in E; discriminate).
  exists buf'. split; [reflexivity |].
  destruct (drawPixel_writes d 160 1 0 (mkColor 300 (-5) 7 255) buf buf'
              ltac:(unfold projection_width; cbn; lra) E) as [Hlen [_ Hpix]].
  rewrite F1, F0 in Hpix.
  destruct Hpix as [Hr [Hg _]]; [cbn; lia | cbn; lia |].
  split; [exact Hlen |]. split; [exact Hr | exact Hg].
Defined.

(** *** Relations kept by every draw call

    A relation between the buffer before and after that is reflexive,
    transitive and kept by [drawPixel] at column [x] is kept by every
    drawing function at that column. *)

Section DrawRelation.

  Variable d : Data.
  Variable x : R.
  Variable rel : Buffer -> Buffer -> Prop.

  Hypothesis rel_refl : forall buf, rel buf buf.
  Hypothesis rel_trans : forall a b c, rel a b -> rel b c -> rel a c.
  Hypothesis rel_pixel :
    forall y c buf buf', drawPixel d x y (Some c) buf = Done buf' -> rel buf buf'.

Lemma drawPixel_rel (y : R) (color : option Color) (buf buf' : Buffer) :
  drawPixel d x y color buf = Done buf' -> rel buf buf'.
Proof. destruct color as [c|]; [apply rel_pixel | discriminate]. Qed.

Lemma drawLine_from_rel (color : option Color) :
  forall n y buf buf', drawLine_from n d x y color buf = Done buf' -> rel buf buf'.
Proof.
  induction n as [|n IH]; intros y buf buf'; cbn [drawLine_from].
  - intros E. injection E as <-. apply rel_refl.
  - destruct (drawPixel d x y color buf) as [b1| |] eqn:E1; cbn [bind]; try discriminate.
    intros E. eapply rel_trans; [eapply drawPixel_rel; eauto | eapply IH; eauto].
Qed.

Lemma drawTexture_rel (wallHeight tpx : Z) (texture : Texture) (buf buf' : Buffer) :
  drawTexture d x wallHeight tpx texture buf = Done buf' -> rel buf buf'.
Proof.
  unfold drawTexture.
  generalize (projection_halfHeight d - IZR wallHeight) as y.
  generalize 0%Z as i.
  generalize (Z.to_nat (texture_height texture)) as n.
  intros n. revert buf.
  induction n as [|n IH]; intros buf i y; cbn [drawTexture_from].
  - intros E. injection E as <-. apply rel_refl.
  - destruct (texture_color texture tpx i) as [color| |]; cbn [bind]; try discriminate.
    destruct (drawLine d x y _ color buf) as [b1| |] eqn:E1; cbn [bind]; try discriminate.
    intros E. eapply rel_trans; [eapply drawLine_from_rel; exact E1 | eapply IH; eauto].
Qed.

Lemma drawBackground_rel (y1 y2 : R) (background : option Image) (buf buf' : Buffer) :
  drawBackground d x y1 y2 background buf = Done buf' -> rel buf buf'.
Proof.
  unfold drawBackground.
  generalize (player_angle (player d) + x) as offset.
  generalize y1 at 2 as y.
  generalize (Js.for_count y1 y2) as n.
  intros n. revert buf.
  induction n as [|n IH]; intros buf y offset; cbn [drawBackground_from].
  - intros E. injection E as <-. apply rel_refl.
  - destruct background as [bg|]; [| discriminate].
    destruct (drawPixel d x y _ buf) as [b1| |] eqn:E1; cbn [bind]; try discriminate.
    intros E. eapply rel_trans; [eapply drawPixel_rel; exact E1 | eapply IH; eauto].
Qed.

Lemma floorSample_rel (y tilex tiley : R) (buf buf' : Buffer) :
  floorSample d x y tilex tiley buf = Done buf' -> rel buf buf'.
Proof.
  unfold floorSample. destruct (outsideCell _ _ _).
  - intros E. injection E as <-. apply rel_refl.
  - destruct (tile _ _ _) as [t| |]; cbn [bind]; try discriminate.
    destruct (floorTexture d t) as [texture|].
    + apply drawPixel_rel.
    + intros E. injection E as <-. apply rel_refl.
Qed.

Lemma drawFloor_rel (wallHeight : Z) (rayAngle : R) (buf buf' : Buffer) :
  drawFloor d x wallHeight rayAngle buf = Done buf' -> rel buf buf'.
Proof.
  unfold drawFloor.
  generalize (projection_halfHeight d + IZR wallHeight + 1) at 2 as y.
  generalize (Js.for_count (projection_halfHeight d + IZR wallHeight + 1)
                (projection_height d)) as n.
  intros n. revert buf.
  induction n as [|n IH]; intros buf y; cbn [drawFloor_from].
  - intros E. injection E as <-. apply rel_refl.
  - destruct (floorPixel d x rayAngle y buf) as [b1| |] eqn:E1; cbn [bind]; try discriminate.
    intros E. eapply rel_trans; [| eapply IH; eauto].
    unfold floorPixel in E1. destruct (floorPoint d rayAngle y) as [tx ty].
    eapply floorSample_rel; eauto.
Qed.

Lemma drawColumn_rel (h : RayHit) (buf buf' : Buffer) :
  INR (hit_rayCount h) = x ->
  drawColumn d h buf = Done buf' -> rel buf buf'.
Proof.
  intros Hx. unfold drawColumn. rewrite Hx.
  destruct (drawBackground d x 0 _ _ buf) as [b1| |] eqn:E1; cbn [bind]; try discriminate.
  destruct (drawTexture d x _ _ _ b1) as [b2| |] eqn:E2; cbn [bind]; try discriminate.
  intros E3.
  eapply rel_trans; [eapply drawBackground_rel; eauto |].
  eapply rel_trans; [eapply drawTexture_rel; eauto | eapply drawFloor_rel; eauto].
Qed.

End DrawRelation.

Lemma drawPixel_length (d : Data) (x y : R) (c : Color) (buf buf' : Buffer) :
  drawPixel d x y (Some c) buf = Done buf' -> length buf' = length buf.
Proof.
  cbn [drawPixel]. intros E. injection E as <-. now rewrite !store_length.
Qed.

Lemma rayCasting_from_length (fuel : nat) (d : Data) :
  forall n rayCount rayAngle fr fr',
    rayCasting_from n fuel d rayCount rayAngle fr = Done fr' ->
    length (frame_buffer fr') = length (frame_buffer fr).
Proof.
  induction n as [|n IH]; intros rayCount rayAngle fr fr'; cbn [rayCasting_from].
  - intros E. injection E as <-. reflexivity.
  - destruct (castRay fuel d rayCount rayAngle) as [h| |] eqn:Eh; cbn [bind];
      try discriminate.
    destruct (drawColumn d h (frame_buffer fr)) as [b1| |] eqn:Ec; cbn [bind];
      try discriminate.
    intros E. apply IH in E. cbn [frame_buffer] in E. rewrite E.
    apply (drawColumn_rel d (INR (hit_rayCount h))
             (fun a b => length b = length a)) with (h := h) (buf := frame_buffer fr);
      auto.
    + intros a b c Hab Hbc. congruence.
    + intros y c b b'. apply drawPixel_length.
Qed.

(** *** Columns do not interfere *)

Lemma byteColumn_of_pixel (w k row : Z) (j : nat) :
  (0 <= k < w)%Z ->
  (pixelOffset w k row <= Z.of_nat j <= pixelOffset w k row + 3)%Z ->
  byteColumn w j = k.
Proof.
  intros Hk Hj. unfold byteColumn, pixelOffset in *.
  assert (E : (Z.of_nat j / 4 = k + row * w)%Z).
  { symmetry. apply (Z.div_unique _ 4 _ (Z.of_nat j - 4 * (k + row * w))); lia. }
  rewrite E, Z.mod_add by lia. apply Z.mod_small. exact Hk.
Qed.

Lemma Zfloor_INR (k : nat) : Zfloor (INR k) = Z.of_nat k.
Proof. rewrite INR_IZR_INZ. apply ZfloorZ. Qed.

(** X7. For a whole projection width, the draw calls of a column inside
    the projection leave every byte that belongs to a pixel of another
    column as it was (and keep the length of the buffer): columns are
    rendered independently of each other. *)
Theorem drawColumn_confined (d : Data) (w : Z) (h : RayHit) (buf buf' : Buffer) :
  projection_width d = IZR w ->
  (Z.of_nat (hit_rayCount h) < w)%Z ->
  drawColumn d h buf = Done buf' ->
  length buf' = length buf
  /\ forall j, byteColumn w j <> Z.of_nat (hit_rayCount h) ->
       nth j buf' 0%Z = nth j buf 0%Z.
Proof.
  intros Hw Hk Hrun.
  apply (drawColumn_rel d (INR (hit_rayCount h))
           (fun a b => length b = length a
                       /\ forall j, byteColumn w j <> Z.of_nat (hit_rayCount h) ->
                            nth j b 0%Z = nth j a 0%Z)) with (h := h); auto.
  - intros a b c [L1 N1] [L2 N2]. split; [congruence |].
    intros j Hj. rewrite N2, N1; auto.
  - intros y c a b Hpix.
    destruct (drawPixel_frame d w _ y c a b Hw Hpix) as [Hlen [Hout _]].
    split; [exact Hlen |]. intros j Hj. apply Hout.
    rewrite Zfloor_INR.
    destruct (Z_lt_dec (Z.of_nat j) (pixelOffset w (Z.of_nat (hit_rayCount h)) (Zfloor y)));
      [now left |].
    destruct (Z_lt_dec (pixelOffset w (Z.of_nat (hit_rayCount h)) (Zfloor y) + 3) (Z.of_nat j));
      [now right |].
    exfalso. apply Hj. apply (byteColumn_of_pixel w _ (Zfloor y)); lia.
Qed.

Lemma drawColumn_confined_witness :
  let d := plain_data (mkColor 10 20 30 255) in
  let buf := repeat 0%Z (4 * 160 * 120) in
  exists fuel h buf',
    castRay fuel d 7 (rayAngleAt d 7) = Done h
    /\ drawColumn d h buf = Done buf'
    /\ forall j, byteColumn 160 j <> 7%Z -> nth j buf' 0%Z = 0%Z.
Proof.
  intros d buf.
  destruct (castRay_total d 7 (rayAngleAt d 7)) as [fuel [h [Hrun [Hin _]]]];
    try apply (plain_data_well_formed (mkColor 10 20 30 255)).
  pose proof (Hrun fuel (Nat.le_refl _)) as Hh.
  destruct (drawColumn_total fuel d 7 (rayAngleAt d 7) h buf
              (plain_data_well_formed _) Hh Hin) as [buf' Hdraw].
  exists fuel, h, buf'. split; [exact Hh |]. split; [exact Hdraw |].
  destruct (castRay_inv _ _ _ _ _ Hh) as [_ [Hc _]].
  destruct (drawColumn_confined d 160 h buf buf') as [_ Hother].
  - unfold projection_width. cbn. lra.
  - rewrite Hc. lia.
  - exact Hdraw.
  - intros j Hj. rewrite Hother by (rewrite Hc; exact Hj).
    unfold buf. apply nth_repeat.
Defined.

(** ** Clearing the screen *)

Lemma clearScreen_from_length :
  forall n i buf, length (clearScreen_from n i buf) = length buf.
Proof.
  induction n as [|n IH]; intros i buf; cbn [clearScreen_from]; [reflexivity |].
  now rewrite IH, !store_length.
Qed.

(** Four consecutive stores, byte by byte. *)
Lemma store4 (o : Z) (v0 v1 v2 v3 : Z) (buf : Buffer) (j : nat) :
  (0 <= o)%Z ->
  (j < length buf)%nat ->
  nth j (store (IZR o + 3) v3 (store (IZR o + 2) v2
          (store (IZR o + 1) v1 (store (IZR o) v0 buf)))) 0%Z
  = if (Z.of_nat j =? o)%Z then clamp8 v0
    else if (Z.of_nat j =? o + 1)%Z then clamp8 v1
    else if (Z.of_nat j =? o + 2)%Z then clamp8 v2
    else if (Z.of_nat j =? o + 3)%Z then clamp8 v3
    else nth j buf 0%Z.
Proof.
  intros Ho Hj. rewrite <- !plus_IZR.
  assert (Hne : forall b : Z, Z.of_nat j <> b -> IZR (Z.of_nat j) <> IZR b).
  { intros b Hb Hc. apply eq_IZR in Hc. contradiction. }
  assert (Hat : forall (b v : Z) (l : Buffer), length l = length buf ->
            Z.of_nat j = b -> nth j (store (IZR b) v l) 0%Z = clamp8 v).
  { intros b v l Hl <-. rewrite <- (Nat2Z.id j) at 1. apply store_same. lia. }
  destruct (Z.eqb_spec (Z.of_nat j) o) as [E0|N0].
  { rewrite !store_other by (apply Hne; lia). now apply Hat. }
  destruct (Z.eqb_spec (Z.of_nat j) (o + 1)) as [E1|N1].
  { rewrite !store_other by (apply Hne; lia). apply Hat; [now rewrite store_length | exact E1]. }
  destruct (Z.eqb_spec (Z.of_nat j) (o + 2)) as [E2|N2].
  { rewrite !store_other by (apply Hne; lia).
    apply Hat; [now rewrite !store_length | exact E2]. }
  destruct (Z.eqb_spec (Z.of_nat j) (o + 3)) as [E3|N3].
  { apply Hat; [now rewrite !store_length | exact E3]. }
  now rewrite !store_other by (apply Hne; lia).
Qed.

Lemma blackByte_at (k : Z) (j : nat) :
  (0 <= k)%Z ->
  (4 * k <= Z.of_nat j < 4 * k + 4)%Z ->
  blackByte j = if (Z.of_nat j =? 4 * k + 3)%Z then 255%Z else 0%Z.
Proof.
  intros Hk Hj. unfold blackByte.
  assert (E : Z.of_nat (j mod 4) = (Z.of_nat j - 4 * k)%Z).
  { rewrite Nat2Z.inj_mod. symmetry. apply (Z.mod_unique _ _ k); lia. }
  destruct (Nat.eqb_spec (j mod 4) 3), (Z.eqb_spec (Z.of_nat j) (4 * k + 3));
    try reflexivity; lia.
Qed.

Lemma clearScreen_from_bytes :
  forall n k buf j,
    (0 <= k)%Z -> (j < length buf)%nat ->
    nth j (clearScreen_from n (4 * k) buf) 0%Z
    = if ((4 * k <=? Z.of_nat j) && (Z.of_nat j <? 4 * (k + Z.of_nat n)))%Z
      then blackByte j else nth j buf 0%Z.
Proof.
  induction n as [|n IH]; intros k buf j Hk Hj; cbn [clearScreen_from].
  - replace ((4 * k <=? Z.of_nat j) && (Z.of_nat j <? 4 * (k + Z.of_nat 0)))%Z
      with false; [reflexivity |].
    symmetry. apply andb_false_iff.
    destruct (Z.leb_spec (4 * k) (Z.of_nat j)); [right | now left].
    apply Z.ltb_ge. lia.
  - replace (4 * k + 4)%Z with (4 * (k + 1))%Z by ring.
    rewrite IH by (try lia; now rewrite !store_length).
    rewrite store4 by (try lia; exact Hj).
    destruct (Z.leb_spec (4 * (k + 1)) (Z.of_nat j)) as [Hge|Hlt]; cbn [andb].
    + replace (4 * k <=? Z.of_nat j)%Z with true by (symmetry; apply Z.leb_le; lia).
      cbn [andb].
      replace (Z.of_nat j <? 4 * (k + Z.of_nat (S n)))%Z
        with (Z.of_nat j <? 4 * (k + 1 + Z.of_nat n))%Z by (f_equal; lia).
      destruct (Z.of_nat j <? 4 * (k + 1 + Z.of_nat n))%Z; [reflexivity |].
      repeat match goal with
             | |- context [(?a =? ?b)%Z] => destruct (Z.eqb_spec a b); [lia |]
             end.
      reflexivity.
    + destruct (Z.leb_spec (4 * k) (Z.of_nat j)) as [Hin|Hout]; cbn [andb].
      * replace (Z.of_nat j <? 4 * (k + Z.of_nat (S n)))%Z with true
          by (symmetry; apply Z.ltb_lt; lia).
        rewrite (blackByte_at k j Hk) by lia.
        repeat match goal with
               | |- context [(?a =? ?b)%Z] =>
                   destruct (Z.eqb_spec a b); try reflexivity; try lia
               end.
      * repeat match goal with
               | |- context [(?a =? ?b)%Z] => destruct (Z.eqb_spec a b); [lia |]
               end.
        reflexivity.
Qed.

(** X8. [clearScreen] keeps the length of the buffer and leaves every
    pixel opaque black: each byte is 0, except every fourth one (the alpha
    channel), which is 255 -- also in a buffer whose length is not a
    multiple of 4. *)
Theorem clearScreen_black (buf : Buffer) :
  length (clearScreen buf) = length buf
  /\ forall j, (j < length buf)%nat -> nth j (clearScreen buf) 0%Z = blackByte j.
Proof.
  unfold clearScreen. split; [apply clearScreen_from_length |].
  intros j Hj.
  pose proof (clearScreen_from_bytes (Z.to_nat ((Z.of_nat (length buf) + 3) / 4)) 0 buf j
                (Z.le_refl 0) Hj) as H.
  change (4 * 0)%Z with 0%Z in H. rewrite H.
  replace ((0 <=? Z.of_nat j)
           && (Z.of_nat j <? 4 * (0 + Z.of_nat (Z.to_nat ((Z.of_nat (length buf) + 3) / 4)))))%Z
    with true; [reflexivity |].
  symmetry. apply andb_true_intro. split; [apply Z.leb_le; lia |].
  apply Z.ltb_lt.
  rewrite Z2Nat.id by (apply Z.div_pos; lia).
  pose proof (Z.div_mod (Z.of_nat (length buf) + 3) 4 ltac:(lia)).
  pose proof (Z.mod_pos_bound (Z.of_nat (length buf) + 3) 4 ltac:(lia)).
  lia.
Qed.

(** ** Loading images *)

Lemma parseImageData_pixels :
  forall (n : nat) (imageData : list Z),
    length imageData = (4 * n)%nat ->
    length (parseImageData imageData) = n
    /\ forall k, (k < n)%nat ->
         nth k (parseImageData imageData) (mkColor 0 0 0 0)
         = mkColor (nth (4 * k) imageData 0%Z) (nth (4 * k + 1) imageData 0%Z)
             (nth (4 * k + 2) imageData 0%Z) 255.
Proof.
  induction n as [|n IH]; intros imageData Hlen.
  - destruct imageData; [| discriminate]. split; [reflexivity |]. intros k Hk. lia.
  - destruct imageData as [|r [|g [|b [|a rest]]]]; try (cbn in Hlen; lia).
    assert (Hrest : length rest = (4 * n)%nat) by (cbn in Hlen; lia).
    destruct (IH rest Hrest) as [Hl Hn].
    change (parseImageData (r :: g :: b :: a :: rest))
      with (mkColor r g b 255 :: parseImageData rest).
    split; [cbn [length]; now rewrite Hl |].
    intros [|k] Hk; [reflexivity |].
    cbn [nth]. rewrite Hn by lia.
    replace (4 * S k)%nat with (S (S (S (S (4 * k))))) by lia.
    reflexivity.
Qed.

(** X9. From the bytes of a [width] x [height] image (four per pixel),
    [parseImageData] builds exactly [width * height] colours, the k-th
    one holding bytes [4k], [4k + 1] and [4k + 2] and the alpha 255 in
    place of byte [4k + 3]; the image made of them is well-formed, as the
    texture samplers require. *)
Theorem parseImageData_image (width height : Z) (imageData : list Z) :
  (0 < width)%Z -> (0 < height)%Z ->
  Z.of_nat (length imageData) = (4 * (width * height))%Z ->
  image_ok (mkImage width height (parseImageData imageData))
  /\ forall k, (Z.of_nat k < width * height)%Z ->
       nth k (parseImageData imageData) (mkColor 0 0 0 0)
       = mkColor (nth (4 * k) imageData 0%Z) (nth (4 * k + 1) imageData 0%Z)
           (nth (4 * k + 2) imageData 0%Z) 255.
Proof.
  intros Hw Hh Hlen.
  destruct (parseImageData_pixels (Z.to_nat (width * height)) imageData) as [Hl Hn].
  { apply Nat2Z.inj. rewrite Hlen, Nat2Z.inj_mul, Z2Nat.id by nia. reflexivity. }
  split.
  - unfold image_ok. cbn [image_width image_height image_data].
    split; [exact Hw |]. split; [exact Hh |]. rewrite Hl. apply Z2Nat.id. nia.
  - intros k Hk. apply Hn. lia.
Qed.

Lemma parseImageData_image_witness :
  image_ok (mkImage 2 1 (parseImageData [1; 2; 3; 4; 5; 6; 7; 8]%Z))
  /\ nth 1 (parseImageData [1; 2; 3; 4; 5; 6; 7; 8]%Z) (mkColor 0 0 0 0)
     = mkColor 5 6 7 255.
Proof.
  destruct (parseImageData_image 2 1 [1; 2; 3; 4; 5; 6; 7; 8]%Z) as [Hok Hn];
    try reflexivity.
  split; [exact Hok |]. apply (Hn 1%nat). reflexivity.
Defined.

(** ** Empty ranges *)

Lemma for_count_empty (lo hi : R) : hi <= lo -> Js.for_count lo hi = 0%nat.
Proof.
  intros H. unfold Js.for_count.
  pose proof (Zceil_bound (hi - lo)) as [Hl _].
  assert (Zceil (hi - lo) < 1)%Z; [| lia].
  apply lt_IZR. lra.
Qed.

Lemma for_count_nonempty (lo hi : R) :
  lo < hi -> exists n, Js.for_count lo hi = S n.
Proof.
  intros H. destruct (Js.for_count lo hi) eqn:E; [| eauto].
  exfalso. assert (Hk : (0 < Js.for_count lo hi)%nat).
  { apply for_count_spec. cbn. lra. }
  lia.
Qed.

(** X10. A line or a background strip over an empty range of rows leaves
    the buffer as it is and raises nothing, even when its colour or its
    background image is [undefined]; over a range that is not empty an
    [undefined] colour or background raises a [TypeError]. *)
Theorem empty_range_draws_nothing (d : Data) (x y1 y2 : R) (buf : Buffer) :
  (y2 <= y1 ->
   (forall color, drawLine d x y1 y2 color buf = Done buf)
   /\ (forall background, drawBackground d x y1 y2 background buf = Done buf))
  /\ (y1 < y2 ->
      drawLine d x y1 y2 None buf = TypeError
      /\ drawBackground d x y1 y2 None buf = TypeError).
Proof.
  split.
  - intros H. unfold drawLine, drawBackground.
    rewrite (for_count_empty _ _ H). split; reflexivity.
  - intros H. unfold drawLine, drawBackground.
    destruct (for_count_nonempty _ _ H) as [n ->]. split; reflexivity.
Qed.

(** ** Wall height *)

(** X11. Line 228 makes nearer walls at least as tall: of two columns
    of one frame with positive distances, the one with the smaller
    distance has the larger or equal wall height, and no wall height is
    negative (for a projection height that is not negative). *)
Theorem wallHeight_antitone (fuel1 fuel2 : nat) (d : Data) (k1 k2 : nat)
  (a1 a2 : R) (h1 h2 : RayHit) :
  0 <= projection_height d ->
  castRay fuel1 d k1 a1 = Done h1 ->
  castRay fuel2 d k2 a2 = Done h2 ->
  0 < hit_distance h1 <= hit_distance h2 ->
  (0 <= hit_wallHeight h2 <= hit_wallHeight h1)%Z.
Proof.
  intros Hh Hr1 Hr2 [Hpos Hle].
  destruct (castRay_inv _ _ _ _ _ Hr1) as [_ [_ [_ [_ [_ [-> _]]]]]].
  destruct (castRay_inv _ _ _ _ _ Hr2) as [_ [_ [_ [_ [_ [-> _]]]]]].
  assert (Hhalf : 0 <= projection_halfHeight d) by (unfold projection_halfHeight; lra).
  assert (Hi : 0 < / hit_distance h2 <= / hit_distance h1).
  { split; [apply Rinv_0_lt_compat; lra | apply Rinv_le_contravar; lra]. }
  split.
  - apply Zfloor_lub. simpl. apply Rmult_le_pos; lra.
  - apply Zfloor_le. unfold Rdiv. apply Rmult_le_compat_l; lra.
Qed.

Lemma wallHeight_antitone_witness :
  let d := default_data [] [] [] in
  exists fuel h, castRay fuel d 80 (player_angle (player d)) = Done h
                 /\ (0 <= hit_wallHeight h)%Z.
Proof.
  intros d.
  destruct (castRay_total d 80 (player_angle (player d))) as [fuel [h [Hrun [_ Hraw]]]].
  - reflexivity.
  - unfold strictly_inside, map_width, map_height. cbn. lra.
  - cbn. lra.
  - reflexivity.
  - pose proof (Hrun fuel (Nat.le_refl _)) as Hh.
    exists fuel, h. split; [exact Hh |].
    destruct (castRay_inv _ _ _ _ _ Hh) as [_ [_ [_ [Er [Ed _]]]]].
    refine (proj1 (wallHeight_antitone fuel fuel d 80 80 _ _ h h _ Hh Hh _)).
    + unfold projection_height. cbn. lra.
    + rewrite Ed. unfold fishEyeFix.
      rewrite Rminus_diag, degreeToRadians_0, cos_0, <- Er. lra.
Defined.

(** ** The floor lies in front of the wall *)

Lemma floorCorrected_cos (d : Data) (rayAngle distance : R) :
  floorCorrected d rayAngle distance
  = distance / cos (degreeToRadians (rayAngle - player_angle (player d))).
Proof.
  unfold floorCorrected. rewrite degreeToRadians_sub.
  replace (degreeToRadians (player_angle (player d) - rayAngle))
    with (- degreeToRadians (rayAngle - player_angle (player d)))
    by (unfold degreeToRadians; field).
  now rewrite cos_neg.
Qed.

(** X12. In a column whose ray looks less than 90 degrees away from the
    heading, every floor row from the first one of the loop on (row
    [halfHeight + wallHeight + 1 + k]) is sampled at a positive distance
    along the ray that is smaller than the raw distance of the wall hit:
    no floor pixel is textured from behind the wall of its column. *)
Theorem floor_in_front_of_wall (fuel : nat) (d : Data) (rayCount : nat)
  (rayAngle : R) (h : RayHit) (k : nat) :
  castRay fuel d rayCount rayAngle = Done h ->
  0 < projection_height d ->
  0 < cos (degreeToRadians (rayAngle - player_angle (player d))) ->
  0 < hit_rawDistance h ->
  0 < floorCorrected d rayAngle
        (floorDistance d (projection_halfHeight d + IZR (hit_wallHeight h) + 1 + INR k))
    < hit_rawDistance h.
Proof.
  intros Hrun Hh Hc Hraw.
  destruct (castRay_inv _ _ _ _ _ Hrun) as [_ [_ [_ [Er [Ed [Ew _]]]]]].
  rewrite floorCorrected_cos.
  set (c := cos (degreeToRadians (rayAngle - player_angle (player d)))) in *.
  assert (Hd : hit_distance h = hit_rawDistance h * c).
  { rewrite Ed, Er. reflexivity. }
  assert (Hdw : 0 < hit_distance h) by (rewrite Hd; now apply Rmult_lt_0_compat).
  set (half := projection_halfHeight d) in *.
  assert (Hhalf : 0 < half /\ projection_height d = 2 * half).
  { unfold half, projection_halfHeight. lra. }
  destruct Hhalf as [Hhalf Eh].
  pose proof (Zfloor_bound (half / hit_distance h)) as [Wl Wh].
  rewrite <- Ew in Wl, Wh.
  assert (Hw0 : 0 <= IZR (hit_wallHeight h)).
  { rewrite Ew. apply (IZR_le 0). apply Zfloor_lub. simpl.
    apply Rmult_le_pos; [lra | left; now apply Rinv_0_lt_compat]. }
  pose proof (pos_INR k) as Hk.
  set (wh := IZR (hit_wallHeight h)) in *.
  assert (Hlt : half < (wh + 1) * hit_distance h).
  { apply (Rmult_lt_compat_r (hit_distance h)) in Wh; [| exact Hdw].
    unfold Rdiv in Wh. rewrite Rmult_assoc, Rinv_l in Wh by lra. lra. }
  unfold floorDistance. rewrite Eh.
  replace (2 * (half + wh + 1 + INR k) - 2 * half) with (2 * (wh + 1 + INR k)) by ring.
  assert (Hq : 2 * half / (2 * (wh + 1 + INR k)) = half / (wh + 1 + INR k))
    by (field; lra).
  rewrite Hq.
  assert (Hfd : 0 < half / (wh + 1 + INR k) < hit_distance h).
  { split.
    - apply Rmult_lt_0_compat; [lra | apply Rinv_0_lt_compat; lra].
    - apply (Rmult_lt_reg_r (wh + 1 + INR k)); [lra |].
      unfold Rdiv. rewrite Rmult_assoc, Rinv_l by lra. nra. }
  destruct Hfd as [F0 F1]. split.
  - apply Rmult_lt_0_compat; [exact F0 | now apply Rinv_0_lt_compat].
  - apply (Rmult_lt_reg_r c); [exact Hc |].
    unfold Rdiv at 1. rewrite Rmult_assoc, Rinv_l by lra. lra.
Qed.

Lemma floor_in_front_of_wall_witness :
  let d := default_data [] [] [] in
  exists fuel h,
    castRay fuel d 80 (player_angle (player d)) = Done h
    /\ floorCorrected d (player_angle (player d))
         (floorDistance d (projection_halfHeight d + IZR (hit_wallHeight h) + 1 + INR 0))
       < hit_rawDistance h.
Proof.
  intros d.
  destruct (castRay_total d 80 (player_angle (player d))) as [fuel [h [Hrun [_ Hraw]]]].
  - reflexivity.
  - unfold strictly_inside, map_width, map_height. cbn. lra.
  - cbn. lra.
  - reflexivity.
  - pose proof (Hrun fuel (Nat.le_refl _)) as Hh.
    exists fuel, h. split; [exact Hh |].
    refine (proj2 (floor_in_front_of_wall fuel d 80 _ h 0 Hh _ _ Hraw)).
    + unfold projection_height. cbn. lra.
    + rewrite Rminus_diag, degreeToRadians_0, cos_0. lra.
Defined.

(** ** The background panorama *)

(** X13. For a heading-plus-column offset and a row that are not
    negative and a well-formed background, the pixel of a background
    strip takes the colour at column [floor offset mod width] and row
    [floor y mod height] of the image, which exists; an offset larger by
    the width of the image selects the same column, so the panorama
    repeats after [width] degrees of turning. *)
Theorem background_sample (d : Data) (x offset y : R) (bg : Image) (n : nat)
  (buf : Buffer) :
  image_ok bg -> 0 <= offset -> 0 <= y ->
  (exists c,
      Js.idx (image_data bg)
        ((Zfloor offset mod image_width bg)
         + (Zfloor y mod image_height bg) * image_width bg)%Z = Some c
      /\ drawBackground_from (S n) d x offset (Some bg) y buf
         = (buf' <- drawPixel d x y (Some c) buf ;;
            drawBackground_from n d x offset (Some bg) (y + 1) buf'))
  /\ (Zfloor (offset + IZR (image_width bg)) mod image_width bg
      = Zfloor offset mod image_width bg)%Z.
Proof.
  intros Hok Hoff Hy. pose proof Hok as [Hw [Hh _]].
  destruct (floor_rem_mod offset (image_width bg) Hoff Hw) as [Ex Tx].
  destruct (floor_rem_mod y (image_height bg) Hy Hh) as [Ey Ty].
  split.
  - destruct (image_index bg _ _ Hok Tx Ty) as [c Hc].
    exists c. cbn [drawBackground_from]. rewrite <- Ex, <- Ey, Hc. auto.
  - rewrite Zfloor_addz. rewrite <- (Z.mul_1_l (image_width bg)) at 1.
    apply Z.mod_add. lia.
Qed.

Lemma background_sample_witness :
  let bg := mkImage 360 60 (repeat (mkColor 1 2 3 255) (360 * 60)) in
  (Zfloor (350 + 20) mod image_width bg = 10)%Z.
Proof.
  intros bg.
  destruct (background_sample (default_data [] [] []) 20 10 0 bg 0 []) as [_ Hwrap];
    try lra.
  { apply image_okb_ok. reflexivity. }
  replace (350 + 20) with (10 + IZR (image_width bg)) by (cbn; lra).
  rewrite Hwrap.
  replace (Zfloor 10) with 10%Z by (symmetry; floor_is 10%Z). reflexivity.
Defined.

(** ** Keys *)

(** X14. A key event changes at most the flag of the key whose code it
    carries: an event with a code other than the four bound ones changes
    nothing, releasing a key after pressing it leaves the state a plain
    release leaves, and presses of two keys give the same state in either
    order. *)
Theorem key_events (k : Keys) (c1 c2 : String.string) :
  (String.eqb c1 "KeyW"%string = false -> String.eqb c1 "KeyS"%string = false ->
   String.eqb c1 "KeyA"%string = false -> String.eqb c1 "KeyD"%string = false ->
   keydown c1 k = k /\ keyup c1 k = k)
  /\ keyup c1 (keydown c1 k) = keyup c1 k
  /\ keydown c1 (keyup c1 k) = keydown c1 k
  /\ keydown c1 (keydown c2 k) = keydown c2 (keydown c1 k).
Proof.
  destruct k as [u dn l r]. unfold keydown, keyup. cbn [key_up key_down key_left key_right].
  split; [| split; [| split]].
  - intros -> -> -> ->. split; reflexivity.
  - destruct (String.eqb c1 "KeyW"%string), (String.eqb c1 "KeyS"%string),
      (String.eqb c1 "KeyA"%string), (String.eqb c1 "KeyD"%string); reflexivity.
  - destruct (String.eqb c1 "KeyW"%string), (String.eqb c1 "KeyS"%string),
      (String.eqb c1 "KeyA"%string), (String.eqb c1 "KeyD"%string); reflexivity.
  - destruct (String.eqb c1 "KeyW"%string), (String.eqb c1 "KeyS"%string),
      (String.eqb c1 "KeyA"%string), (String.eqb c1 "KeyD"%string),
      (String.eqb c2 "KeyW"%string), (String.eqb c2 "KeyS"%string),
      (String.eqb c2 "KeyA"%string), (String.eqb c2 "KeyD"%string); reflexivity.
Qed.

(** ** The main loop *)

Lemma playable_with_key (d : Data) (k : Keys) : playable d -> playable (with_key d k).
Proof.
  intros [[H1 H2 H3 H4 H5 H6 H7 H8 H9 H10 H11] Hf Hs Hh Hr].
  constructor; [constructor |..]; assumption.
Qed.

(** A completed tick of [movePlayer] leaves a playable configuration
    playable. *)
Lemma playable_moved (d : Data) (p' : Player) :
  playable d -> movePlayer d = Done p' -> playable (with_player d p').
Proof.
  intros [Hwf Hf Hs Hh Hr] Hrun.
  destruct (movePlayer_step d p' Hs Hf Hrun) as [Hf' [F [S R]]].
  pose proof (movePlayer_normalised d p' Hh Hr Hrun) as Hh'.
  destruct Hwf as [H1 H2 H3 H4 H5 H6 H7 H8 H9 H10 H11].
  constructor; cbn [map player with_player]; try assumption.
  - constructor; cbn [map player with_player screen precision textures
                        floorTextures backgrounds]; try assumption.
    + now apply free_inside.
    + rewrite F. exact H4.
    + apply Hh'.
  - eapply short_stride_same; eauto.
  - rewrite S. exact Hr.
Qed.

Lemma rayCasting_total (d : Data) (n : nat) :
  well_formed d -> projection_width d = INR n ->
  exists fuel, forall fuel' buf, (fuel <= fuel')%nat ->
    exists fr, rayCasting fuel' d buf = Done fr
               /\ length (frame_buffer fr) = length buf.
Proof.
  intros Hwf Hn.
  destruct (rayCasting_from_total d Hwf n 0) as [fuel [hits [_ [_ Hloop]]]].
  { rewrite Hn. cbn. lra. }
  exists fuel. intros fuel' buf Hle.
  destruct (Hloop fuel' [] buf Hle) as [buf' Hrun].
  assert (E : rayCasting fuel' d buf = Done (mkFrame ([] ++ hits) buf')).
  { unfold rayCasting. rewrite Hn, for_count_whole. exact Hrun. }
  eexists. split; [exact E |].
  unfold rayCasting in E. now apply rayCasting_from_length in E.
Qed.

(** X16. On a playable configuration with a whole projection width, the
    loop runs for any sequence of key states without raising: every
    frame clears the buffer, moves the player and casts all columns, the
    configuration stays playable and the buffer keeps its length. *)
Theorem main_loop_never_raises (n : nat) (ks : list Keys) : forall d : Data,
  playable d ->
  projection_width d = INR n ->
  exists fuel, forall fuel' buf, (fuel <= fuel')%nat ->
    exists d' buf',
      frames ks fuel' d buf = Done (d', buf')
      /\ playable d'
      /\ length buf' = length buf.
Proof.
  induction ks as [|k ks IH]; intros d Hplay Hn.
  - exists 0%nat. intros fuel' buf _. exists d, buf. auto.
  - pose proof (playable_with_key d k Hplay) as Hk.
    destruct (movePlayer_total (with_key d k) (wf_enclosed _ (play_wf _ Hk))
                (play_stride _ Hk) (play_free _ Hk)) as [p' Hmove].
    pose proof (playable_moved _ _ Hk Hmove) as Hnext.
    set (d1 := with_player (with_key d k) p') in *.
    assert (Hn1 : projection_width d1 = INR n) by exact Hn.
    destruct (rayCasting_total d1 n (play_wf _ Hnext) Hn1) as [fuelA Hcast].
    destruct (IH d1 Hnext Hn1) as [fuelB Hrest].
    exists (Nat.max fuelA fuelB). intros fuel' buf Hle.
    destruct (Hcast fuel' (clearScreen buf) ltac:(lia)) as [fr [Hfr Hlen]].
    destruct (Hrest fuel' (frame_buffer fr) ltac:(lia)) as [d' [buf' [Hrun [Hp' Hl']]]].
    exists d', buf'. split; [| split; [exact Hp' |]].
    + cbn [frames]. unfold frame. rewrite Hmove. cbn [bind]. fold d1.
      rewrite Hfr. cbn [bind fst snd]. exact Hrun.
    + rewrite Hl', Hlen. unfold clearScreen. apply clearScreen_from_length.
Qed.

Lemma plain_data_playable (c : Color) : playable (plain_data c).
Proof.
  constructor.
  - apply plain_data_well_formed.
  - unfold on_free_tile. cbn [plain_data map default_data player default_player
      player_x player_y].
    replace (Zfloor 2) with 2%Z by (symmetry; floor_is 2%Z). reflexivity.
  - now apply shipped_stride.
  - unfold normalised. cbn. lra.
  - cbn. lra.
Defined.

Lemma main_loop_never_raises_witness :
  let d := plain_data (mkColor 10 20 30 255) in
  let ks := [mkKeys true false false false; mkKeys true false true false;
             mkKeys false true false true] in
  exists fuel d' buf',
    frames ks fuel d (repeat 7%Z 16) = Done (d', buf') /\ length buf' = 16%nat.
Proof.
  intros d ks.
  destruct (main_loop_never_raises 160 ks d) as [fuel Hrun].
  - apply plain_data_playable.
  - unfold projection_width. rewrite INR_IZR_INZ. cbn. lra.
  - destruct (Hrun fuel (repeat 7%Z 16) (Nat.le_refl _)) as [d' [buf' [E [_ Hl]]]].
    exists fuel, d', buf'. split; [exact E | exact Hl].
Defined.

(** * Rays that leave the map *)

(** An [undefined] colour for the first row of a wall strip raises as
    soon as the strip is drawn: its first line covers at least one row. *)
Lemma drawTexture_undefined_colour (d : Data) (x : R) (wallHeight texturePositionX : Z)
  (texture : Texture) (buf : Buffer) :
  (0 <= wallHeight)%Z -> (0 < texture_height texture)%Z ->
  texture_color texture texturePositionX 0 = Done None ->
  drawTexture d x wallHeight texturePositionX texture buf = TypeError.
Proof.
  intros Hw Hh Hc. unfold drawTexture.
  destruct (Z.to_nat (texture_height texture)) as [|n] eqn:En; [lia |].
  cbn [drawTexture_from]. rewrite Hc. cbn [bind].
  set (y := projection_halfHeight d - IZR wallHeight).
  set (inc := IZR wallHeight * 2 / IZR (texture_height texture)).
  assert (Hinc : 0 <= inc).
  { unfold inc. apply Rmult_le_pos.
    - apply Rmult_le_pos; [apply IZR_le; lia | lra].
    - left. apply Rinv_0_lt_compat. apply IZR_lt. lia. }
  assert (Hy : y < IZR (Zfloor (y + (inc + 2)))).
  { pose proof (Zfloor_bound (y + (inc + 2))) as [_ Hb]. lra. }
  unfold drawLine. destruct (for_count_nonempty _ _ Hy) as [k ->].
  reflexivity.
Qed.

(** The same for the draw calls of a column whose wall fills the screen
    (no background row above it). *)
Lemma drawColumn_undefined_colour (d : Data) (h : RayHit) (buf : Buffer) :
  0 <= projection_halfHeight d <= IZR (hit_wallHeight h) ->
  (0 < texture_height (hit_texture h))%Z ->
  texture_color (hit_texture h) (hit_texturePositionX h) 0 = Done None ->
  drawColumn d h buf = TypeError.
Proof.
  intros [H0 Hw] Hh Hc. unfold drawColumn, drawBackground.
  rewrite for_count_empty by lra. cbn [drawBackground_from bind].
  rewrite drawTexture_undefined_colour; auto.
  apply le_IZR. lra.
Qed.

Lemma sqrt3_bounds : 173 / 100 < sqrt 3 < 174 / 100.
Proof.
  pose proof (sqrt_sqrt 3 ltac:(lra)) as Hs.
  pose proof (sqrt_pos 3) as Hp.
  split; nra.
Qed.

Lemma degreeToRadians_180 : degreeToRadians 180 = PI.
Proof. unfold degreeToRadians. field. Qed.

(** The corrected distance of the ray that leaves the opened map
    through the west edge after one step. *)
Lemma edge_distance (floor0 texture1 background0 : list Color) :
  fishEyeFix (edge_data floor0 texture1 background0) 180
    (rawDistance (edge_data floor0 texture1 background0)
       (mkRay (- (1 / 128)) (1 / 256)))
  = sqrt 3 / 128.
Proof.
  unfold fishEyeFix, rawDistance.
  cbn [edge_data player edge_player player_x player_y player_angle ray_x ray_y].
  replace ((1 / 128 - - (1 / 128)) ^ 2 + (1 / 256 - 1 / 256) ^ 2)
    with (Rsqr (1 / 64)) by (unfold Rsqr; field).
  rewrite sqrt_Rsqr by lra.
  replace (degreeToRadians (180 - 210)) with (- (PI / 6))
    by (unfold degreeToRadians; field).
  rewrite cos_neg, cos_PI6. field.
Qed.

(** Its texture column: the sum of the hit coordinates is negative, and
    so are the remainder and its floor. *)
Lemma edge_texturePositionX :
  texturePositionX 8 (mkRay (- (1 / 128)) (1 / 256)) = (-1)%Z.
Proof.
  unfold texturePositionX, Js.rem, Js.trunc. cbn [ray_x ray_y].
  destruct (Rle_dec 0 (8 * (- (1 / 128) + 1 / 256) / 8)) as [H|_]; [lra |].
  rewrite (Zceil_eq 0) by (simpl; lra).
  apply (Zfloor_eq (-1)). simpl. lra.
Qed.

(** C7. A ray that leaves the map is not always recovered.  On the
    shipped configuration with the north-west corner tile opened and the
    player on that tile at (1/128, 1/256), heading 210 degrees, the first
    ray of a frame points west: the wall finder stops after one step at
    (-1/128, 1/256), outside the bounds, with wall id 1, as the claim
    says.  The hit then selects texture column -1, the colour read from
    the bitmap is [undefined], and [rayCasting] ends in a [TypeError]
    instead of returning: the out-of-bounds ray reaches the caller. *)
Theorem out_of_bounds_surfaces (floor0 texture1 background0 : list Color)
  (fuel : nat) (buf : Buffer) :
  let d := edge_data floor0 texture1 background0 in
  on_free_tile (map d) (player_x (player d)) (player_y (player d))
  /\ findWall (S fuel) d (player_angle (player d) - player_halfFov d)
     = Done (mkRay (- (1 / 128)) (1 / 256), Some 1%Z)
  /\ outside (map d) (- (1 / 128)) (1 / 256) = true
  /\ rayCasting (S fuel) d buf = TypeError.
Proof.
  intros d.
  assert (Ea : player_angle (player d) - player_halfFov d = 180).
  { unfold player_halfFov. cbn. lra. }
  assert (Eout : outside (map d) (- (1 / 128)) (1 / 256) = true).
  { apply outside_true. unfold in_bounds. lra. }
  assert (Efind : findWall (S fuel) d 180
                  = Done (mkRay (- (1 / 128)) (1 / 256), Some 1%Z)).
  { unfold findWall. rewrite degreeToRadians_180, cos_PI, sin_PI.
    rewrite wallFinder_S. unfold advance. cbn [fst snd ray_x ray_y].
    replace (player_x (player d) + -1 / precision d) with (- (1 / 128))
      by (cbn; lra).
    replace (player_y (player d) + 0 / precision d) with (1 / 256)
      by (cbn; lra).
    rewrite Eout. reflexivity. }
  split; [| split; [| split]].
  - unfold on_free_tile. cbn [d edge_data map player edge_player player_x player_y].
    replace (Zfloor (1 / 256)) with 0%Z by (symmetry; apply (Zfloor_eq 0); simpl; lra).
    replace (Zfloor (1 / 128)) with 0%Z by (symmetry; apply (Zfloor_eq 0); simpl; lra).
    reflexivity.
  - rewrite Ea. exact Efind.
  - exact Eout.
  - unfold rayCasting. rewrite Ea.
    replace (projection_width d) with (INR 160)
      by (rewrite INR_IZR_INZ; unfold projection_width; cbn; lra).
    rewrite for_count_whole. cbn [rayCasting_from].
    unfold castRay. rewrite Efind. cbn [bind].
    change (wallTexture d (Some 1%Z)) with (Some default_bitmap).
    cbv iota beta. cbn [bind].
    rewrite drawColumn_undefined_colour; [reflexivity |..].
    + cbn [hit_wallHeight].
      replace (projection_halfHeight d) with 60
        by (unfold projection_halfHeight, projection_height; cbn; lra).
      unfold d. rewrite edge_distance.
      pose proof sqrt3_bounds as [Hlo Hhi].
      split; [lra |]. apply IZR_le, Zfloor_lub.
      set (q := 60 / (sqrt 3 / 128)).
      assert (Hq : q * sqrt 3 = 7680) by (unfold q; field; lra).
      nra.
    + reflexivity.
    + cbn [hit_texture hit_texturePositionX].
      change (texture_width default_bitmap) with 8%Z.
      rewrite edge_texturePositionX. reflexivity.
Qed.
